(** * The query state reducer of apollo-client

    A shallow embedding of the [queries] reducer and of [resetQueryState],
    first as functions over the own properties of a state object, then
    once more over an explicit JavaScript heap, where the question whether
    the reducer writes into the state object it was handed can be asked at
    all. *)

From Stdlib Require Import ZArith.
From stdpp Require Import gmap strings list fin_maps.

Open Scope Z_scope.

(** ** JavaScript values *)

(** A property of a JavaScript object as the reducer sees it when it reads it:
    [undefined] (also what reading an absent property yields), [null], or a
    value of the declared TypeScript type. *)
Inductive jsval (A : Type) : Type :=
| JUndefined
| JNull
| JVal (a : A).
Arguments JUndefined {A}.
Arguments JNull {A}.
Arguments JVal {A} a.

#[export] Instance jsval_eq_dec {A} `{EqDecision A} : EqDecision (jsval A).
Proof. solve_decision. Defined.

(** [x < y] of JavaScript for a number [x] and a nullable number [y]:
    [null] converts to [0], [undefined] converts to [NaN] and every comparison
    with [NaN] is false. *)
Definition js_lt (x : Z) (y : jsval Z) : bool :=
  match y with
  | JUndefined => false
  | JNull => x <? 0
  | JVal n => x <? n
  end.

(** [l.indexOf(x)]: the first position of [x] in [l], or [-1]. *)
Fixpoint indexOf (l : list string) (x : string) : Z :=
  match l with
  | [] => -1
  | y :: l' => if decide (y = x) then 0 else
                 let i := indexOf l' x in if i <? 0 then -1 else i + 1
  end.

(** The names of the properties of [Object.prototype] (ECMAScript with its
    Annex B), which every plain object inherits. *)
Definition Object_prototype_names : list string :=
  [ "constructor"; "__defineGetter__"; "__defineSetter__"; "hasOwnProperty";
    "__lookupGetter__"; "__lookupSetter__"; "isPrototypeOf";
    "propertyIsEnumerable"; "toString"; "valueOf"; "__proto__";
    "toLocaleString" ].

(** [key] names a property that a plain object inherits. *)
Definition inherited (key : string) : bool :=
  bool_decide (key ∈ Object_prototype_names).

(** A [Date] is its time value, the milliseconds since the epoch. *)
Definition Date : Type := Z.

(** ** Computations over a heap

    A computation reads and writes a store of type [St] and may get stuck
    (on a reference that points to no object of the expected shape). *)
Definition Js (St A : Type) : Type := St → option (A * St).

Definition ret {St A} (a : A) : Js St A := λ h, Some (a, h).

Definition bind {St A B} (m : Js St A) (k : A → Js St B) : Js St B :=
  λ h, match m h with
       | Some (a, h') => k a h'
       | None => None
       end.

Notation "x <- m ;; k" := (bind m (λ x, k))
  (at level 90, m at level 89, right associativity,
   format "'[' x  <-  m  ;;  '/' k ']'").
Notation "m ;;; k" := (bind m (λ _, k))
  (at level 90, right associativity).

(** The callback of [reduce] in [resetQueryState]: [res[key] = state[key]],
    for the keys of [state]. *)
Definition copyKey {V : Type} (state res : gmap string V) (key : string)
  : gmap string V :=
  match state !! key with
  | Some v => <[key := v]> res
  | None => res
  end.

(** ** What the reducer imports

    Types of the graphql package and of sibling modules that the reducer only
    passes along, and the two imported functions it calls. *)
Class Imports : Type := {
  SelectionSetWithRoot : Type;
  FragmentMap : Type;
  (** The variables of a query, a plain object.  lodash's [isEqual] compares
      such objects by value; an element of [Variables] stands for the value. *)
  Variables : Type;
  Variables_eq_dec :: EqDecision Variables;
  Error : Type;
  GraphQLError : Type;
  GraphQLResult : Type;
  (** [result.errors] *)
  errors : GraphQLResult → jsval (list GraphQLError);
  (** [graphQLResultHasError] of data/storeUtils, which is no part of the
      sources at hand: the result carries errors. *)
  graphQLResultHasError : GraphQLResult → bool;
}.

Section Reducer.
Context `{Imports}.

(** lodash's [isEqual] on two (possibly missing) variables objects. *)
Definition isEqual (a b : jsval Variables) : bool := bool_decide (a = b).

(** ** The data model *)

Record QueryStoreValue : Type := {
  queryString : jsval string;
  query : jsval SelectionSetWithRoot;
  variables : jsval Variables;
  previousVariables : jsval Variables;
  loading : jsval bool;
  stopped : jsval bool;
  pollInterval : jsval Z;
  inFlight : jsval bool;
  lastRequestTime : jsval Date;
  networkError : jsval Error;
  graphQLErrors : jsval (list GraphQLError);
  forceFetch : jsval bool;
  returnPartialData : jsval bool;
  lastRequestId : jsval Z;
  fragmentMap : jsval FragmentMap;
}.

(** [QueryStore]: an object used as a map from query ids to entries. *)
Abbreviation QueryStore := (gmap string QueryStoreValue).

(** The fields of a QUERY_INIT action that the reducer reads. *)
Record QueryInitAction : Type := {
  init_queryId : string;
  init_queryString : jsval string;
  init_query : jsval SelectionSetWithRoot;
  init_variables : jsval Variables;
  init_storePreviousVariables : bool;
  init_pollInterval : jsval Z;
  init_forceFetch : jsval bool;
  init_returnPartialData : jsval bool;
  init_fragmentMap : jsval FragmentMap;
}.

(** [ApolloAction], told apart by the [is...Action] guards.  Every kind of
    action the reducer has no branch for is [OTHER_ACTION]. *)
Inductive ApolloAction : Type :=
| QUERY_INIT (a : QueryInitAction)
| FETCH_REQUEST (queryId : string) (requestId : Z)
| QUERY_RESULT (queryId : string) (requestId : Z) (result : GraphQLResult)
| QUERY_ERROR (queryId : string) (requestId : Z) (error : jsval Error)
| QUERY_RESULT_CLIENT (queryId : string) (complete : bool)
| QUERY_STOP (queryId : string)
| STORE_RESET (observableQueryIds : list string)
| OTHER_ACTION.

(** The query id an action carries, if it carries one. *)
Definition action_queryId (action : ApolloAction) : option string :=
  match action with
  | QUERY_INIT a => Some (init_queryId a)
  | FETCH_REQUEST q _ | QUERY_RESULT q _ _ | QUERY_ERROR q _ _
  | QUERY_RESULT_CLIENT q _ | QUERY_STOP q => Some q
  | STORE_RESET _ | OTHER_ACTION => None
  end.

(** ** Object literals *)

(** The object [{}] read as an entry: every property is undefined. *)
Definition emptyObject : QueryStoreValue :=
  {| queryString := JUndefined; query := JUndefined; variables := JUndefined;
     previousVariables := JUndefined; loading := JUndefined;
     stopped := JUndefined; pollInterval := JUndefined; inFlight := JUndefined;
     lastRequestTime := JUndefined; networkError := JUndefined;
     graphQLErrors := JUndefined; forceFetch := JUndefined;
     returnPartialData := JUndefined; lastRequestId := JUndefined;
     fragmentMap := JUndefined |}.

(** The entry written by QUERY_INIT (an object literal, no [assign]). *)
Definition initEntry (a : QueryInitAction) (previousVariables : jsval Variables)
  : QueryStoreValue :=
  {| queryString := init_queryString a;
     query := init_query a;
     variables := init_variables a;
     previousVariables := previousVariables;
     loading := JVal true;
     stopped := JVal false;
     networkError := JNull;
     graphQLErrors := JNull;
     pollInterval := init_pollInterval a;
     inFlight := JVal false;
     lastRequestTime := JNull;
     forceFetch := init_forceFetch a;
     returnPartialData := init_returnPartialData a;
     lastRequestId := JNull;
     fragmentMap := init_fragmentMap a |}.

(** [assign(e, { inFlight: true, lastRequestId: .., lastRequestTime: .. })] *)
Definition assignFetchRequest (e : QueryStoreValue) (requestId : Z) (now : Date)
  : QueryStoreValue :=
  {| queryString := queryString e; query := query e; variables := variables e;
     previousVariables := previousVariables e; loading := loading e;
     stopped := stopped e; pollInterval := pollInterval e;
     inFlight := JVal true;
     lastRequestTime := JVal now;
     networkError := networkError e; graphQLErrors := graphQLErrors e;
     forceFetch := forceFetch e; returnPartialData := returnPartialData e;
     lastRequestId := JVal requestId;
     fragmentMap := fragmentMap e |}.

(** [assign(e, { loading: false, inFlight: false, networkError: null,
                 graphQLErrors: .., previousVariables: null })] *)
Definition assignResult (e : QueryStoreValue) (errs : jsval (list GraphQLError))
  : QueryStoreValue :=
  {| queryString := queryString e; query := query e; variables := variables e;
     previousVariables := JNull;
     loading := JVal false;
     stopped := stopped e; pollInterval := pollInterval e;
     inFlight := JVal false;
     lastRequestTime := lastRequestTime e;
     networkError := JNull;
     graphQLErrors := errs;
     forceFetch := forceFetch e; returnPartialData := returnPartialData e;
     lastRequestId := lastRequestId e; fragmentMap := fragmentMap e |}.

(** [assign(e, { loading: false, inFlight: false, networkError: error })] *)
Definition assignError (e : QueryStoreValue) (error : jsval Error)
  : QueryStoreValue :=
  {| queryString := queryString e; query := query e; variables := variables e;
     previousVariables := previousVariables e;
     loading := JVal false;
     stopped := stopped e; pollInterval := pollInterval e;
     inFlight := JVal false;
     lastRequestTime := lastRequestTime e;
     networkError := error;
     graphQLErrors := graphQLErrors e;
     forceFetch := forceFetch e; returnPartialData := returnPartialData e;
     lastRequestId := lastRequestId e; fragmentMap := fragmentMap e |}.

(** [assign(e, { loading: !complete, networkError: null,
                 previousVariables: null })] *)
Definition assignResultClient (e : QueryStoreValue) (complete : bool)
  : QueryStoreValue :=
  {| queryString := queryString e; query := query e; variables := variables e;
     previousVariables := JNull;
     loading := JVal (negb complete);
     stopped := stopped e; pollInterval := pollInterval e;
     inFlight := inFlight e;
     lastRequestTime := lastRequestTime e;
     networkError := JNull;
     graphQLErrors := graphQLErrors e;
     forceFetch := forceFetch e; returnPartialData := returnPartialData e;
     lastRequestId := lastRequestId e; fragmentMap := fragmentMap e |}.

(** [assign(e, { loading: false, stopped: true })] *)
Definition assignStop (e : QueryStoreValue) : QueryStoreValue :=
  {| queryString := queryString e; query := query e; variables := variables e;
     previousVariables := previousVariables e;
     loading := JVal false;
     stopped := JVal true;
     pollInterval := pollInterval e; inFlight := inFlight e;
     lastRequestTime := lastRequestTime e; networkError := networkError e;
     graphQLErrors := graphQLErrors e;
     forceFetch := forceFetch e; returnPartialData := returnPartialData e;
     lastRequestId := lastRequestId e; fragmentMap := fragmentMap e |}.

(** ** Reading and writing a state object

    A state object is a plain object: its prototype is [Object.prototype]
    and its own properties are query ids holding entries.  It has no own
    property named [__proto__]: assignment cannot create one, so no object
    the reducer builds has one. *)

(** What [previousState[key]] evaluates to: the entry of an own property;
    for a name of [Object.prototype] that is no own property, what the
    prototype holds there (a function, under [__proto__] the prototype
    itself); or [undefined]. *)
Inductive property : Type :=
| OwnEntry (e : QueryStoreValue)
| InheritedValue
| NoProperty.

Definition getProperty (state : QueryStore) (key : string) : property :=
  match state !! key with
  | Some e => OwnEntry e
  | None => if inherited key then InheritedValue else NoProperty
  end.

(** [!!v]: entries, functions and [Object.prototype] are objects. *)
Definition truthy (v : property) : bool :=
  match v with
  | OwnEntry _ | InheritedValue => true
  | NoProperty => false
  end.

(** [v.lastRequestId] and [v.variables], for a [v] that is not undefined:
    neither the functions of [Object.prototype] nor the prototype itself
    have such a property. *)
Definition property_lastRequestId (v : property) : jsval Z :=
  match v with
  | OwnEntry e => lastRequestId e
  | InheritedValue | NoProperty => JUndefined
  end.

Definition property_variables (v : property) : jsval Variables :=
  match v with
  | OwnEntry e => variables e
  | InheritedValue | NoProperty => JUndefined
  end.

(** [assign({}, src)] with what was read under a query id: the own
    enumerable properties of [src] are copied.  lodash skips a source that
    is undefined, and a function and [Object.prototype] have none. *)
Definition assign_from (src : property) : QueryStoreValue :=
  match src with
  | OwnEntry e => e
  | InheritedValue | NoProperty => emptyObject
  end.

(** An object as the reducer returns it: its own properties, and its
    prototype when that is an entry instead of [Object.prototype]. *)
Record StateObject : Type := {
  properties : QueryStore;
  prototype : option QueryStoreValue;
}.

(** A state object seen as an object: [previousState] itself, and also
    [assign({}, previousState)], which has the same own properties. *)
Definition plainObject (state : QueryStore) : StateObject :=
  {| properties := state; prototype := None |}.

(** [newState[key] = entry].  An own property is overwritten; otherwise the
    name [__proto__] reaches the setter of [Object.prototype], which makes
    [entry] the prototype and defines no property; any other name, those of
    [Object.prototype]'s functions included, becomes an own property. *)
Definition setProperty (newState : StateObject) (key : string)
    (entry : QueryStoreValue) : StateObject :=
  if decide (key = "__proto__" ∧ properties newState !! key = None)
  then {| properties := properties newState; prototype := Some entry |}
  else {| properties := <[key := entry]> (properties newState);
          prototype := prototype newState |}.

(** ** The reducer *)

(** [Object.keys(state)].  The order of the keys plays no part below: the
    keys are pairwise distinct and each is written once. *)
Definition Object_keys (state : QueryStore) : list string :=
  (map_to_list state).*1.

Definition resetQueryState (state : QueryStore) (observableQueryIds : list string)
  : QueryStore :=
  foldl (copyKey state) ∅
    (filter (λ queryId, indexOf observableQueryIds queryId > -1)
       (Object_keys state)).

(** The value of the local [previousVariables] of the QUERY_INIT branch. *)
Definition initPreviousVariables (previousQuery : property)
    (a : QueryInitAction) : jsval Variables :=
  if init_storePreviousVariables a && truthy previousQuery then
    if negb (isEqual (property_variables previousQuery) (init_variables a))
    then property_variables previousQuery
    else JUndefined
  else JUndefined.

(** [queries(previousState, action)], as the object it returns.  [now] is
    what [new Date()] returns during the call. *)
Definition queries_object (now : Date) (previousState : QueryStore)
    (action : ApolloAction) : StateObject :=
  match action with
  | QUERY_INIT a =>
      let newState := plainObject previousState in
      let previousQuery := getProperty previousState (init_queryId a) in
      setProperty newState (init_queryId a)
        (initEntry a (initPreviousVariables previousQuery a))
  | FETCH_REQUEST queryId requestId =>
      if negb (truthy (getProperty previousState queryId))
      then plainObject previousState
      else
        let newState := plainObject previousState in
        setProperty newState queryId
          (assignFetchRequest (assign_from (getProperty previousState queryId))
             requestId now)
  | QUERY_RESULT queryId requestId result =>
      if negb (truthy (getProperty previousState queryId))
      then plainObject previousState
      else if js_lt requestId
                (property_lastRequestId (getProperty previousState queryId))
      then plainObject previousState
      else
        let newState := plainObject previousState in
        let resultHasGraphQLErrors := graphQLResultHasError result in
        setProperty newState queryId
          (assignResult (assign_from (getProperty previousState queryId))
             (if resultHasGraphQLErrors then errors result else JNull))
  | QUERY_ERROR queryId requestId error =>
      if negb (truthy (getProperty previousState queryId))
      then plainObject previousState
      else if js_lt requestId
                (property_lastRequestId (getProperty previousState queryId))
      then plainObject previousState
      else
        let newState := plainObject previousState in
        setProperty newState queryId
          (assignError (assign_from (getProperty previousState queryId)) error)
  | QUERY_RESULT_CLIENT queryId complete =>
      if negb (truthy (getProperty previousState queryId))
      then plainObject previousState
      else
        let newState := plainObject previousState in
        setProperty newState queryId
          (assignResultClient (assign_from (getProperty previousState queryId))
             complete)
  | QUERY_STOP queryId =>
      let newState := plainObject previousState in
      setProperty newState queryId
        (assignStop (assign_from (getProperty previousState queryId)))
  | STORE_RESET observableQueryIds =>
      plainObject (resetQueryState previousState observableQueryIds)
  | OTHER_ACTION => plainObject previousState
  end.

(** The own properties of the state the reducer returns, its query state
    map. *)
Definition queries (now : Date) (previousState : QueryStore)
    (action : ApolloAction) : QueryStore :=
  properties (queries_object now previousState action).

(** The default value of the first parameter: [previousState = {}] when the
    caller passes [undefined]. *)
Definition queries_default (now : Date) (previousState : option QueryStore)
    (action : ApolloAction) : QueryStore :=
  queries now (default ∅ previousState) action.

(** ** The reducer over a heap

    Objects live in a heap and are handed around by reference.  A state
    object maps query ids to references to entry objects and has a
    prototype, [Object.prototype] unless an entry was made its prototype;
    what an entry holds (variables, errors, the query) is only ever copied
    by the reducer and stays a value here. *)

Definition loc : Type := positive.

Inductive object : Type :=
| StoreObject (props : gmap string loc) (proto : option loc)
| EntryObject (e : QueryStoreValue).

Abbreviation heap := (gmap loc object).

(** A computation that cannot go on: the heap is none the model covers. *)
Definition stuck {A : Type} : Js heap A := λ _, None.

(** [{ ... }] and [assign({}, ...)] create an object at a reference that
    was not in use. *)
Definition newObject (o : object) : Js heap loc :=
  λ h, let l := fresh (dom h) in Some (l, <[l := o]> h).

Definition readStore (l : loc) : Js heap (gmap string loc * option loc) :=
  λ h, match h !! l with
       | Some (StoreObject m proto) => Some ((m, proto), h)
       | _ => None
       end.

Definition readEntry (l : loc) : Js heap QueryStoreValue :=
  λ h, match h !! l with
       | Some (EntryObject e) => Some (e, h)
       | _ => None
       end.

(** What [state[key]] evaluates to, on the heap. *)
Inductive reference : Type :=
| RefEntry (l : loc)
| RefInherited
| RefUndefined.

(** [state[key]]: an own property; else what the prototype has under
    [key].  Under [Object.prototype] that is one of its own values or
    nothing; under an entry that was made the prototype, [__proto__] is
    that entry, and any other key would read a field of the entry as if it
    were an entry, which the model does not follow. *)
Definition getProp (state : loc) (key : string) : Js heap reference :=
  o <- readStore state ;;
  match o.1 !! key with
  | Some l => ret (RefEntry l)
  | None =>
      match o.2 with
      | None => ret (if inherited key then RefInherited else RefUndefined)
      | Some p => if decide (key = "__proto__") then ret (RefEntry p)
                  else stuck
      end
  end.

(** What [getProp] yields on an object with the properties [m] and the
    prototype [Object.prototype]. *)
Definition readPlain (m : gmap string loc) (key : string) : reference :=
  match m !! key with
  | Some l => RefEntry l
  | None => if inherited key then RefInherited else RefUndefined
  end.

(** The object a write [state[key] = v] leaves at [state], which had the
    properties [m] and the prototype [proto]. *)
Definition written (m : gmap string loc) (proto : option loc) (key : string)
    (v : loc) : object :=
  if decide (key = "__proto__" ∧ m !! key = None)
  then StoreObject m (Some v)
  else StoreObject (<[key := v]> m) proto.

(** [state[key] = v]: writes into the object [state] refers to, as
    [setProperty] does. *)
Definition setProp (state : loc) (key : string) (v : loc) : Js heap unit :=
  λ h, match h !! state with
       | Some (StoreObject m proto) =>
           Some ((), <[state := written m proto key v]> h)
       | _ => None
       end.

(** [res[key] = v] for a [key] out of [Object.keys(state)], an own property
    name of a state object (so not [__proto__]): defines or overwrites the
    own property. *)
Definition setOwnProp (res : loc) (key : string) (v : loc) : Js heap unit :=
  λ h, match h !! res with
       | Some (StoreObject m proto) =>
           Some ((), <[res := StoreObject (<[key := v]> m) proto]> h)
       | _ => None
       end.

(** [assign({}, src)] on a state object: a new object with [src]'s own
    properties, each still referring to the entry [src] refers to, and with
    [Object.prototype] as its prototype. *)
Definition assignStore (src : loc) : Js heap loc :=
  o <- readStore src ;; newObject (StoreObject o.1 None).

(** [assign({}, src, { ... })] on what was read under a query id: a new
    object with [src]'s own enumerable properties (none unless [src] is an
    entry) overwritten by the literal's, which [patch] stands for. *)
Definition assignEntry (src : reference)
    (patch : QueryStoreValue → QueryStoreValue) : Js heap loc :=
  e <- match src with
       | RefEntry l => readEntry l
       | RefInherited | RefUndefined => ret emptyObject
       end ;;
  newObject (EntryObject (patch e)).

(** [src.lastRequestId] *)
Definition readLastRequestId (src : reference) : Js heap (jsval Z) :=
  match src with
  | RefEntry l => e <- readEntry l ;; ret (lastRequestId e)
  | RefInherited | RefUndefined => ret JUndefined
  end.

(** What was read, with the entry a reference leads to. *)
Definition readProperty (src : reference) : Js heap property :=
  match src with
  | RefEntry l => e <- readEntry l ;; ret (OwnEntry e)
  | RefInherited => ret InheritedValue
  | RefUndefined => ret NoProperty
  end.

(** [!!v] on the heap. *)
Definition truthyRef (src : reference) : bool :=
  match src with
  | RefEntry _ | RefInherited => true
  | RefUndefined => false
  end.

(** One step of [reduce] in [resetQueryState], on the heap. *)
Definition copyKeyH (state res : loc) (key : string) : Js heap unit :=
  o <- readStore state ;;
  match o.1 !! key with
  | Some l => setOwnProp res key l
  | None => ret ()
  end.

Fixpoint reduceH (state res : loc) (keys : list string) : Js heap unit :=
  match keys with
  | [] => ret ()
  | key :: keys' => copyKeyH state res key ;;; reduceH state res keys'
  end.

Definition resetQueryStateH (state : loc) (observableQueryIds : list string)
  : Js heap loc :=
  o <- readStore state ;;
  res <- newObject (StoreObject ∅ None) ;;
  reduceH state res
    (filter (λ queryId, indexOf observableQueryIds queryId > -1)
       (map_to_list o.1).*1) ;;;
  ret res.

Definition queriesH (now : Date) (previousState : loc)
    (action : ApolloAction) : Js heap loc :=
  match action with
  | QUERY_INIT a =>
      newState <- assignStore previousState ;;
      src <- getProp previousState (init_queryId a) ;;
      previousQuery <- readProperty src ;;
      entry <- newObject
                 (EntryObject
                    (initEntry a (initPreviousVariables previousQuery a))) ;;
      setProp newState (init_queryId a) entry ;;;
      ret newState
  | FETCH_REQUEST queryId requestId =>
      p <- getProp previousState queryId ;;
      if negb (truthyRef p) then ret previousState
      else
        newState <- assignStore previousState ;;
        src <- getProp previousState queryId ;;
        entry <- assignEntry src
                   (λ e, assignFetchRequest e requestId now) ;;
        setProp newState queryId entry ;;;
        ret newState
  | QUERY_RESULT queryId requestId result =>
      p <- getProp previousState queryId ;;
      if negb (truthyRef p) then ret previousState
      else
        q <- getProp previousState queryId ;;
        lastId <- readLastRequestId q ;;
        if js_lt requestId lastId then ret previousState
        else
          newState <- assignStore previousState ;;
          let resultHasGraphQLErrors := graphQLResultHasError result in
          src <- getProp previousState queryId ;;
          entry <- assignEntry src
                     (λ e, assignResult e
                             (if resultHasGraphQLErrors then errors result
                              else JNull)) ;;
          setProp newState queryId entry ;;;
          ret newState
  | QUERY_ERROR queryId requestId error =>
      p <- getProp previousState queryId ;;
      if negb (truthyRef p) then ret previousState
      else
        q <- getProp previousState queryId ;;
        lastId <- readLastRequestId q ;;
        if js_lt requestId lastId then ret previousState
        else
          newState <- assignStore previousState ;;
          src <- getProp previousState queryId ;;
          entry <- assignEntry src (λ e, assignError e error) ;;
          setProp newState queryId entry ;;;
          ret newState
  | QUERY_RESULT_CLIENT queryId complete =>
      p <- getProp previousState queryId ;;
      if negb (truthyRef p) then ret previousState
      else
        newState <- assignStore previousState ;;
        src <- getProp previousState queryId ;;
        entry <- assignEntry src (λ e, assignResultClient e complete) ;;
        setProp newState queryId entry ;;;
        ret newState
  | QUERY_STOP queryId =>
      newState <- assignStore previousState ;;
      src <- getProp previousState queryId ;;
      entry <- assignEntry src assignStop ;;
      setProp newState queryId entry ;;;
      ret newState
  | STORE_RESET observableQueryIds =>
      resetQueryStateH previousState observableQueryIds
  | OTHER_ACTION => ret previousState
  end.

(** ** What a heap holds at a reference *)

Definition entryAt (h : heap) (l : loc) : option QueryStoreValue :=
  match h !! l with
  | Some (EntryObject e) => Some e
  | _ => None
  end.

Definition propsAt (h : heap) (l : loc) : option (gmap string loc) :=
  match h !! l with
  | Some (StoreObject m _) => Some m
  | _ => None
  end.

(** The prototype of the state object at [l]: [Some None] for
    [Object.prototype]. *)
Definition protoAt (h : heap) (l : loc) : option (option loc) :=
  match h !! l with
  | Some (StoreObject _ proto) => Some proto
  | _ => None
  end.

(** [h'] holds every object of [h], unchanged. *)
Definition keeps (h h' : heap) : Prop :=
  ∀ l o, h !! l = Some o → h' !! l = Some o.

(** The reference [l] points to a state object of [h] whose prototype is
    [Object.prototype] and whose properties all point to entries, and read
    through the references it is the map [S]. *)
Definition represents (h : heap) (l : loc) (S : QueryStore) : Prop :=
  ∃ m, propsAt h l = Some m
       ∧ protoAt h l = Some None
       ∧ map_Forall (λ _ le, is_Some (entryAt h le)) m
       ∧ S = omap (entryAt h) m.

(** The reference [l] points to an object of [h] that, read through its
    references, is [o]: the same own properties and the same prototype. *)
Definition representsObject (h : heap) (l : loc) (o : StateObject) : Prop :=
  ∃ m proto, propsAt h l = Some m
       ∧ protoAt h l = Some proto
       ∧ map_Forall (λ _ le, is_Some (entryAt h le)) m
       ∧ properties o = omap (entryAt h) m
       ∧ match proto with
         | Some p => is_Some (entryAt h p) ∧ prototype o = entryAt h p
         | None => prototype o = None
         end.

(** ** Reading the reducer's control flow *)

(** The inputs on which [queries] leaves through one of its
    [return previousState] statements: a query id under which the state
    reads undefined in the guarded branches, a request id below the
    entry's, and an action of no kind the reducer knows. *)
Definition returnsPreviousState (previousState : QueryStore)
    (action : ApolloAction) : bool :=
  match action with
  | FETCH_REQUEST queryId _ | QUERY_RESULT_CLIENT queryId _ =>
      negb (truthy (getProperty previousState queryId))
  | QUERY_RESULT queryId requestId _ | QUERY_ERROR queryId requestId _ =>
      negb (truthy (getProperty previousState queryId))
      || js_lt requestId
           (property_lastRequestId (getProperty previousState queryId))
  | OTHER_ACTION => true
  | QUERY_INIT _ | QUERY_STOP _ | STORE_RESET _ => false
  end.

(** The actions that do not write [lastRequestId] of the query [queryId] and
    do not drop its entry: all but a QUERY_INIT or a FETCH_REQUEST for this
    very query and a STORE_RESET whose allow-list lacks it. *)
Definition leavesRequestId (queryId : string) (action : ApolloAction) : bool :=
  match action with
  | QUERY_INIT a => bool_decide (init_queryId a ≠ queryId)
  | FETCH_REQUEST q _ => bool_decide (q ≠ queryId)
  | STORE_RESET observableQueryIds => bool_decide (queryId ∈ observableQueryIds)
  | _ => true
  end.

(** The store reduces a stream of actions, each at the time it is
    dispatched. *)
Definition queries_seq (previousState : QueryStore)
    (dispatched : list (Date * ApolloAction)) : QueryStore :=
  foldl (λ state step, queries step.1 state step.2) previousState dispatched.

End Reducer.

Abbreviation QueryStore := (gmap string QueryStoreValue).
Abbreviation heap := (gmap loc object).

(* The imports of a record are read off the type it is built at. *)
Arguments Build_QueryInitAction {_} & _ _ _ _ _ _ _ _ _.
Arguments Build_QueryStoreValue {_} & _ _ _ _ _ _ _ _ _ _ _ _ _ _ _.

(** Two entries that agree on every field but [lastRequestTime]. *)
Definition agree_but_lastRequestTime `{Imports} (e1 e2 : QueryStoreValue) : Prop :=
  queryString e1 = queryString e2 ∧ query e1 = query e2
  ∧ variables e1 = variables e2
  ∧ previousVariables e1 = previousVariables e2
  ∧ loading e1 = loading e2 ∧ stopped e1 = stopped e2
  ∧ pollInterval e1 = pollInterval e2 ∧ inFlight e1 = inFlight e2
  ∧ networkError e1 = networkError e2 ∧ graphQLErrors e1 = graphQLErrors e2
  ∧ forceFetch e1 = forceFetch e2
  ∧ returnPartialData e1 = returnPartialData e2
  ∧ lastRequestId e1 = lastRequestId e2 ∧ fragmentMap e1 = fragmentMap e2.

(** ** The operation registry of ApolloClient

    [idCounter] and [activeOperations] of the client, and the three private
    methods that use them.  What the methods print to the console is left
    out. *)

(** [x++] leaves in [x], for a number [x] that holds an integer between 0 and
    2^53: numbers are doubles, and 2^53 + 1 rounds back to 2^53. *)
Definition js_increment (x : Z) : Z := if x <? 2 ^ 53 then x + 1 else x.

Section Operations.
Context {QueryOptions : Type}.

Record ClientOperations : Type := {
  idCounter : Z;
  activeOperations : gmap Z QueryOptions;
}.

(** The constructor: [this.idCounter = 0; this.activeOperations = {}]. *)
Definition newClientOperations : ClientOperations :=
  {| idCounter := 0; activeOperations := ∅ |}.

Definition generateOperationId (c : ClientOperations) : Z * ClientOperations :=
  let opId := idCounter c in
  (opId, {| idCounter := js_increment (idCounter c);
            activeOperations := activeOperations c |}).

Definition startOperation (options : QueryOptions) (c : ClientOperations)
  : Z * ClientOperations :=
  let '(opId, c1) := generateOperationId c in
  (opId, {| idCounter := idCounter c1;
            activeOperations := <[opId := options]> (activeOperations c1) |}).

(** [delete this.activeOperations[opId]] *)
Definition stopOperation (opId : Z) (c : ClientOperations) : ClientOperations :=
  {| idCounter := idCounter c;
     activeOperations := delete opId (activeOperations c) |}.

(** What a caller does with the registry: start an operation, or stop one
    by its id. *)
Inductive operationCall : Type :=
| Start (options : QueryOptions)
| Stop (opId : Z).

(** A sequence of calls, with the ids the [Start]s returned, in order. *)
Fixpoint runOperations (calls : list operationCall) (c : ClientOperations)
  : list Z * ClientOperations :=
  match calls with
  | [] => ([], c)
  | Start options :: calls' =>
      let '(opId, c1) := startOperation options c in
      let '(ids, c2) := runOperations calls' c1 in
      (opId :: ids, c2)
  | Stop opId :: calls' => runOperations calls' (stopOperation opId c)
  end.

(** The number of [Start]s among [calls]. *)
Fixpoint starts (calls : list operationCall) : Z :=
  match calls with
  | [] => 0
  | Start _ :: calls' => 1 + starts calls'
  | Stop _ :: calls' => starts calls'
  end.

(** Every active operation has an id that the counter has passed, and the
    counter is in the range in which it counts exactly. *)
Definition registered (c : ClientOperations) : Prop :=
  0 ≤ idCounter c ≤ 2 ^ 53
  ∧ ∀ opId, is_Some (activeOperations c !! opId) → 0 ≤ opId < idCounter c.

End Operations.

Arguments ClientOperations : clear implicits.
Arguments operationCall : clear implicits.

(** ** A small instance to run the reducer on

    Queries, fragments and errors are their texts, variables map names to
    numbers, and a result is its [errors] member. *)

(** Modelled from the spec: [graphQLResultHasError] of data/storeUtils is not
    among the sources; the spec has the reducer capture "any result-level
    errors", so a result carries errors when its [errors] member is a list
    with an element. *)
Definition demo_graphQLResultHasError (result : jsval (list string)) : bool :=
  match result with
  | JVal (_ :: _) => true
  | _ => false
  end.

Definition demoImports : Imports :=
  {| SelectionSetWithRoot := string;
     FragmentMap := string;
     Variables := gmap string Z;
     Error := string;
     GraphQLError := string;
     GraphQLResult := jsval (list string);
     errors := λ result, result;
     graphQLResultHasError := demo_graphQLResultHasError |}.

(** A result that carries an error, and one that carries none. *)
Definition demoFailed : @GraphQLResult demoImports := JVal ["boom"].
Definition demoClean : @GraphQLResult demoImports := JNull.

Definition demoInit (queryId : string) (x : Z) (storePrevious : bool)
  : @QueryInitAction demoImports :=
  {| init_queryId := queryId;
     init_queryString := JVal "{ people(id: $x) { name } }";
     init_query := JVal "people";
     init_variables := JVal {[ "x" := x ]};
     init_storePreviousVariables := storePrevious;
     init_pollInterval := JUndefined;
     init_forceFetch := JVal false;
     init_returnPartialData := JVal false;
     init_fragmentMap := JVal "" |}.

(** The entry of a query that was initialised and then requested with request
    id [2] at time [1000]. *)
Definition demoEntry : @QueryStoreValue demoImports :=
  assignFetchRequest (initEntry (demoInit "a" 1 false) JUndefined) 2 1000.

(** A state with the three queries ["a"], ["b"] and ["c"]. *)
Definition demoState : gmap string (@QueryStoreValue demoImports) :=
  {[ "a" := demoEntry;
     "b" := initEntry (demoInit "b" 1 false) JUndefined;
     "c" := initEntry (demoInit "c" 7 false) JUndefined ]}.

(** The same state laid out in a heap: the state object at [1], its entries
    at [2], [3] and [4]. *)
Definition demoHeap : gmap loc (@object demoImports) :=
  {[ 1%positive := StoreObject {[ "a" := 2%positive; "b" := 3%positive;
                                  "c" := 4%positive ]} None;
     2%positive := EntryObject demoEntry;
     3%positive := EntryObject (initEntry (demoInit "b" 1 false) JUndefined);
     4%positive := EntryObject (initEntry (demoInit "c" 7 false) JUndefined) ]}.

(** What is dispatched after a request for ["b"] in the runs below: the
    query is stopped, a cached result is delivered for it, and another
    query is requested. *)
Definition demoDispatched : list (Date * @ApolloAction demoImports) :=
  [ (1001, QUERY_STOP "b");
    (1002, QUERY_RESULT_CLIENT "b" true);
    (1003, FETCH_REQUEST "a" 9) ].

(** A client that starts two operations, stops the first and starts a
    third. *)
Definition demoCalls : list (operationCall string) :=
  [ Start "{ a }"; Start "{ b }"; Stop 0; Start "{ c }" ].

(** The state the reducer starts from, [{}]. *)
Definition demoEmpty : gmap string (@QueryStoreValue demoImports) := ∅.

(** * Properties *)

(** ** JavaScript helpers *)

Lemma js_lt_val x n : js_lt x (JVal n) = true ↔ x < n.
Proof. simpl. apply Z.ltb_lt. Qed.

Lemma js_lt_same x : js_lt x (JVal x) = false.
Proof. simpl. apply Z.ltb_irrefl. Qed.

Lemma js_lt_null x : js_lt x JNull = true ↔ x < 0.
Proof. simpl. apply Z.ltb_lt. Qed.

Lemma js_lt_undefined x : js_lt x JUndefined = false.
Proof. reflexivity. Qed.

Lemma indexOf_lower l x : -1 ≤ indexOf l x.
Proof.
  induction l as [|y l IH]; simpl; [lia|].
  destruct (decide (y = x)); [lia|].
  destruct (Z.ltb_spec (indexOf l x) 0); lia.
Qed.

Lemma indexOf_found l x : indexOf l x > -1 ↔ x ∈ l.
Proof.
  induction l as [|y l IH]; simpl.
  - split; [lia | intros Hx; inversion Hx].
  - destruct (decide (y = x)) as [->|Hne].
    + split; [intros _; left | lia].
    + rewrite elem_of_cons, <- IH.
      pose proof (indexOf_lower l x).
      destruct (Z.ltb_spec (indexOf l x) 0); split; try lia.
      intros [?|?]; [congruence | lia].
Qed.

(** ** Copying keys *)

Section Fold.
Context {V : Type}.

Lemma foldl_copyKey_lookup (m : gmap string V) ks acc k :
  foldl (copyKey m) acc ks !! k =
    if decide (k ∈ ks ∧ is_Some (m !! k)) then m !! k else acc !! k.
Proof.
  revert acc. induction ks as [|x ks IH]; intros acc; cbn [foldl].
  - case_decide as Hd; [destruct Hd as [Hin _]; inversion Hin | done].
  - rewrite IH. unfold copyKey at 1.
    destruct (decide (k ∈ ks ∧ is_Some (m !! k))) as [[Hin Hs]|Hn].
    + rewrite decide_True; [done | split; [by right | done]].
    + destruct (decide (x = k)) as [->|Hne].
      * destruct (m !! k) as [v|] eqn:Hk.
        -- rewrite lookup_insert_eq.
           rewrite decide_True; [done | split; [by left | eauto]].
        -- rewrite decide_False; [done | intros [_ [? ?]]; congruence].
      * assert (Hacc : match m !! x with
                       | Some v => <[x := v]> acc
                       | None => acc
                       end !! k = acc !! k).
        { destruct (m !! x); [by rewrite lookup_insert_ne | done]. }
        rewrite Hacc.
        rewrite decide_False; [done|].
        intros [Hin Hs]. apply Hn. split; [|done].
        apply elem_of_cons in Hin as [?|?]; [congruence | done].
Qed.

Lemma elem_of_keys (m : gmap string V) k :
  k ∈ (map_to_list m).*1 ↔ is_Some (m !! k).
Proof.
  rewrite list_elem_of_fmap. split.
  - intros [[k' v] [-> Hin]]. apply elem_of_map_to_list in Hin. eauto.
  - intros [v Hv]. exists (k, v). split; [done|].
    by apply elem_of_map_to_list.
Qed.

Lemma reset_lookup (m : gmap string V) ids k :
  foldl (copyKey m) ∅
    (filter (λ queryId, indexOf ids queryId > -1) (map_to_list m).*1) !! k
  = if decide (k ∈ ids) then m !! k else None.
Proof.
  rewrite foldl_copyKey_lookup, lookup_empty.
  destruct (decide (k ∈ ids)) as [Hin|Hout].
  - destruct (m !! k) as [v|] eqn:Hk.
    + rewrite decide_True; [done|]. split; [|eauto].
      apply list_elem_of_filter. split; [by apply indexOf_found|].
      apply elem_of_keys. eauto.
    + by case_decide.
  - rewrite decide_False; [done|]. intros [Hf _].
    apply list_elem_of_filter in Hf as [Hf _]. by apply indexOf_found in Hf.
Qed.

End Fold.

(** ** Reading and writing, and the reducer branch by branch *)

Section ReducerBranches.
Context `{Imports}.
Implicit Types (S : QueryStore) (e : QueryStoreValue) (now : Date).

Lemma resetQueryState_lookup S ids k :
  resetQueryState S ids !! k = if decide (k ∈ ids) then S !! k else None.
Proof. apply (reset_lookup S ids k). Qed.

Lemma inherited_proto : inherited "__proto__" = true.
Proof. reflexivity. Qed.

Lemma not_inherited_proto key : inherited key = false → key ≠ "__proto__".
Proof. intros Hk ->. by rewrite inherited_proto in Hk. Qed.

Lemma getProperty_own S key e : S !! key = Some e → getProperty S key = OwnEntry e.
Proof. intros He. unfold getProperty. by rewrite He. Qed.

Lemma getProperty_absent S key :
  S !! key = None → inherited key = false → getProperty S key = NoProperty.
Proof. intros Hk Hin. unfold getProperty. by rewrite Hk, Hin. Qed.

Lemma getProperty_inherited S key :
  S !! key = None → inherited key = true → getProperty S key = InheritedValue.
Proof. intros Hk Hin. unfold getProperty. by rewrite Hk, Hin. Qed.

(** A write defines an own property, unless it is a write to [__proto__] on
    an object without such an own property. *)
Lemma setProperty_own S key entry :
  key ≠ "__proto__" ∨ is_Some (S !! key) →
  setProperty (plainObject S) key entry = plainObject (<[key := entry]> S).
Proof.
  intros Hkey. unfold setProperty, plainObject. simpl.
  rewrite decide_False; [done|].
  intros [-> Hnone]. destruct Hkey as [?|[x Hx]]; [done | congruence].
Qed.

Lemma setProperty_proto S entry :
  S !! "__proto__" = None →
  setProperty (plainObject S) "__proto__" entry
  = {| properties := S; prototype := Some entry |}.
Proof.
  intros Hnone. unfold setProperty, plainObject. simpl.
  by rewrite decide_True.
Qed.

Lemma setProperty_lookup_ne S key entry k :
  k ≠ key → properties (setProperty (plainObject S) key entry) !! k = S !! k.
Proof.
  intros Hne. unfold setProperty, plainObject. simpl.
  case_decide; simpl; [done | by rewrite lookup_insert_ne].
Qed.

(** *** An own property under the action's query id *)

Lemma queries_QUERY_INIT_own now S a :
  init_queryId a ≠ "__proto__" ∨ is_Some (S !! init_queryId a) →
  queries now S (QUERY_INIT a)
  = <[init_queryId a :=
        initEntry a (initPreviousVariables (getProperty S (init_queryId a)) a)]>
      S.
Proof.
  intros Hkey. unfold queries, queries_object.
  by rewrite setProperty_own.
Qed.

Lemma queries_FETCH_REQUEST_own now S queryId requestId e :
  S !! queryId = Some e →
  queries now S (FETCH_REQUEST queryId requestId)
  = <[queryId := assignFetchRequest e requestId now]> S.
Proof.
  intros He. unfold queries, queries_object.
  rewrite (getProperty_own S queryId e He). cbn [truthy negb assign_from].
  rewrite setProperty_own; [done | eauto].
Qed.

Lemma queries_QUERY_RESULT_own now S queryId requestId result e :
  S !! queryId = Some e →
  queries now S (QUERY_RESULT queryId requestId result)
  = if js_lt requestId (lastRequestId e) then S
    else <[queryId := assignResult e
                        (if graphQLResultHasError result then errors result
                         else JNull)]> S.
Proof.
  intros He. unfold queries, queries_object.
  rewrite (getProperty_own S queryId e He).
  cbn [truthy negb assign_from property_lastRequestId].
  destruct (js_lt requestId (lastRequestId e)); [done|].
  rewrite setProperty_own; [done | eauto].
Qed.

Lemma queries_QUERY_ERROR_own now S queryId requestId error e :
  S !! queryId = Some e →
  queries now S (QUERY_ERROR queryId requestId error)
  = if js_lt requestId (lastRequestId e) then S
    else <[queryId := assignError e error]> S.
Proof.
  intros He. unfold queries, queries_object.
  rewrite (getProperty_own S queryId e He).
  cbn [truthy negb assign_from property_lastRequestId].
  destruct (js_lt requestId (lastRequestId e)); [done|].
  rewrite setProperty_own; [done | eauto].
Qed.

Lemma queries_QUERY_RESULT_CLIENT_own now S queryId complete e :
  S !! queryId = Some e →
  queries now S (QUERY_RESULT_CLIENT queryId complete)
  = <[queryId := assignResultClient e complete]> S.
Proof.
  intros He. unfold queries, queries_object.
  rewrite (getProperty_own S queryId e He). cbn [truthy negb assign_from].
  rewrite setProperty_own; [done | eauto].
Qed.

Lemma queries_QUERY_STOP_own now S queryId e :
  S !! queryId = Some e →
  queries now S (QUERY_STOP queryId) = <[queryId := assignStop e]> S.
Proof.
  intros He. unfold queries, queries_object.
  rewrite (getProperty_own S queryId e He). cbn [assign_from].
  rewrite setProperty_own; [done | eauto].
Qed.

(** *** No property under the action's query id *)

Lemma queries_guarded_absent now S action queryId :
  S !! queryId = None → inherited queryId = false →
  match action with
  | FETCH_REQUEST q _ | QUERY_RESULT q _ _ | QUERY_ERROR q _ _
  | QUERY_RESULT_CLIENT q _ => q = queryId
  | _ => False
  end →
  queries now S action = S.
Proof.
  intros Hk Hin Haction. unfold queries, queries_object.
  destruct action as [a|q r|q r res|q r err|q c|q|ids|];
    try done; subst q; by rewrite (getProperty_absent S queryId Hk Hin).
Qed.

Lemma queries_QUERY_STOP_absent now S queryId :
  S !! queryId = None → queryId ≠ "__proto__" →
  queries now S (QUERY_STOP queryId) = <[queryId := assignStop emptyObject]> S.
Proof.
  intros Hk Hne. unfold queries, queries_object.
  rewrite setProperty_own by eauto.
  unfold getProperty. rewrite Hk. by destruct (inherited queryId).
Qed.

(** *** The frame *)

(** An action that carries a query id leaves the own property of every
    other id as it is. *)
Lemma queries_frame now S action queryId k :
  action_queryId action = Some queryId → k ≠ queryId →
  queries now S action !! k = S !! k.
Proof.
  intros Hid Hne. unfold queries, queries_object.
  destruct action as [a|q r|q r res|q r err|q c|q|ids|];
    simpl in Hid; simplify_eq;
    repeat match goal with
           | |- context [if ?b then _ else _] => destruct b
           end;
    by first [ apply setProperty_lookup_ne | done ].
Qed.

Lemma queries_clock_free_cases t1 t2 S action :
  (∀ queryId requestId,
      action = FETCH_REQUEST queryId requestId →
      S !! queryId = None ∧ inherited queryId = false) →
  queries t1 S action = queries t2 S action.
Proof.
  intros Hfetch. destruct action as [a|q r|q r res|q r err|q c|q|ids|]; try done.
  destruct (Hfetch q r eq_refl) as [Hk Hin].
  by rewrite !(queries_guarded_absent _ S (FETCH_REQUEST q r) q Hk Hin).
Qed.

End ReducerBranches.
(** ** The reducer over maps *)

Section ReducerFacts.
Context `{Imports}.
Implicit Types (S : QueryStore) (e : QueryStoreValue) (now : Date).

(** Closes a goal [∃ e', S' = <[q := e']> S ∧ fields of e'] once the reducer
    is rewritten to an insertion. *)
Ltac entry_fields := eexists; split; [reflexivity | repeat split].

(** *** A name of [Object.prototype] under the action's query id *)

Lemma queries_guarded_inherited now S queryId :
  S !! queryId = None → inherited queryId = true → queryId ≠ "__proto__" →
  (∀ requestId,
     queries now S (FETCH_REQUEST queryId requestId)
     = <[queryId := assignFetchRequest emptyObject requestId now]> S)
  ∧ (∀ requestId result,
       queries now S (QUERY_RESULT queryId requestId result)
       = <[queryId := assignResult emptyObject
                        (if graphQLResultHasError result then errors result
                         else JNull)]> S)
  ∧ (∀ requestId error,
       queries now S (QUERY_ERROR queryId requestId error)
       = <[queryId := assignError emptyObject error]> S)
  ∧ (∀ complete,
       queries now S (QUERY_RESULT_CLIENT queryId complete)
       = <[queryId := assignResultClient emptyObject complete]> S).
Proof.
  intros Hk Hin Hne. unfold queries, queries_object.
  rewrite (getProperty_inherited S queryId Hk Hin).
  cbn [truthy negb assign_from property_lastRequestId js_lt].
  repeat split; intros; by rewrite setProperty_own by eauto.
Qed.

(** Under [__proto__], when that is no own property, every action that
    carries a query id leaves the own properties as they are. *)
Lemma queries_proto_properties now S action :
  S !! "__proto__" = None → action_queryId action = Some "__proto__" →
  queries now S action = S.
Proof.
  intros Hk Hid. unfold queries, queries_object.
  destruct action as [a|q r|q r res|q r err|q c|q|ids|];
    simpl in Hid; simplify_eq;
    try rewrite Hid;
    rewrite ?(getProperty_inherited S "__proto__" Hk inherited_proto);
    cbn [truthy negb assign_from property_lastRequestId js_lt];
    by rewrite setProperty_proto.
Qed.

(** X15: QUERY_RESULT.  A query id under which the state has no own
    property and which is no name of [Object.prototype] leaves the state as
    it is; so does a request id that JavaScript's [<] puts below the
    entry's lastRequestId (for a numeric lastRequestId: strictly below it,
    an equal id is accepted).  Otherwise the entry is replaced by one with
    loading false, inFlight false, networkError null, previousVariables
    null, graphQLErrors the result's errors if the result carries errors
    and null if not, and every other field as before. *)
Theorem queries_QUERY_RESULT now S queryId requestId result :
  let S' := queries now S (QUERY_RESULT queryId requestId result) in
  (S !! queryId = None → inherited queryId = false → S' = S)
  ∧ (∀ e, S !! queryId = Some e →
       js_lt requestId (lastRequestId e) = true → S' = S)
  ∧ (∀ e n, S !! queryId = Some e →
       lastRequestId e = JVal n → requestId < n → S' = S)
  ∧ (∀ e, S !! queryId = Some e →
       js_lt requestId (lastRequestId e) = false
       ∨ lastRequestId e = JVal requestId →
       ∃ e', S' = <[queryId := e']> S
         ∧ loading e' = JVal false
         ∧ inFlight e' = JVal false
         ∧ networkError e' = JNull
         ∧ previousVariables e' = JNull
         ∧ (graphQLResultHasError result = true →
              graphQLErrors e' = errors result)
         ∧ (graphQLResultHasError result = false → graphQLErrors e' = JNull)
         ∧ queryString e' = queryString e ∧ query e' = query e
         ∧ variables e' = variables e ∧ stopped e' = stopped e
         ∧ pollInterval e' = pollInterval e
         ∧ lastRequestTime e' = lastRequestTime e
         ∧ forceFetch e' = forceFetch e
         ∧ returnPartialData e' = returnPartialData e
         ∧ lastRequestId e' = lastRequestId e
         ∧ fragmentMap e' = fragmentMap e).
Proof.
  cbv zeta. repeat split.
  - intros Hk Hin. by apply (queries_guarded_absent now S _ queryId).
  - intros e He Hlt. by rewrite (queries_QUERY_RESULT_own _ _ _ _ _ e He), Hlt.
  - intros e n He Hn Hlt. rewrite (queries_QUERY_RESULT_own _ _ _ _ _ e He), Hn.
    by rewrite (proj2 (js_lt_val requestId n) Hlt).
  - intros e He Hfresh.
    assert (Hlt : js_lt requestId (lastRequestId e) = false).
    { destruct Hfresh as [?|Heq]; [done|]. rewrite Heq. apply js_lt_same. }
    rewrite (queries_QUERY_RESULT_own _ _ _ _ _ e He), Hlt.
    entry_fields; simpl; by intros ->.
Qed.

(** C2, as amended: QUERY_STOP on a known query id keeps the entry; it is
    replaced by one with loading false and stopped true and every other field
    as before.  The entry is not removed. *)
Theorem queries_QUERY_STOP_known now S queryId e :
  S !! queryId = Some e →
  ∃ e', queries now S (QUERY_STOP queryId) = <[queryId := e']> S
    ∧ queries now S (QUERY_STOP queryId) !! queryId = Some e'
    ∧ loading e' = JVal false
    ∧ stopped e' = JVal true
    ∧ queryString e' = queryString e ∧ query e' = query e
    ∧ variables e' = variables e
    ∧ previousVariables e' = previousVariables e
    ∧ pollInterval e' = pollInterval e ∧ inFlight e' = inFlight e
    ∧ lastRequestTime e' = lastRequestTime e
    ∧ networkError e' = networkError e
    ∧ graphQLErrors e' = graphQLErrors e
    ∧ forceFetch e' = forceFetch e
    ∧ returnPartialData e' = returnPartialData e
    ∧ lastRequestId e' = lastRequestId e
    ∧ fragmentMap e' = fragmentMap e.
Proof.
  intros He. rewrite (queries_QUERY_STOP_own now S queryId e He).
  entry_fields. apply lookup_insert_eq.
Qed.

(** C3, as amended: the reducer is a function of previousState, the action
    and the clock reading.  For an action other than a FETCH_REQUEST, and
    for a FETCH_REQUEST of a query id under which the state has no own
    property and which is no name of [Object.prototype], two applications
    return equal states whatever the clock says; for a FETCH_REQUEST of a
    query id that has an entry they return that state with the entry's
    lastRequestTime set to the respective clock reading, the entries
    agreeing on every other field. *)
Theorem queries_pure_up_to_clock t1 t2 S action :
  ((∀ queryId requestId,
       action = FETCH_REQUEST queryId requestId →
       S !! queryId = None ∧ inherited queryId = false) →
   queries t1 S action = queries t2 S action)
  ∧ (∀ queryId requestId e,
       action = FETCH_REQUEST queryId requestId → S !! queryId = Some e →
       ∃ e1 e2,
         queries t1 S action = <[queryId := e1]> S
         ∧ queries t2 S action = <[queryId := e2]> S
         ∧ lastRequestTime e1 = JVal t1
         ∧ lastRequestTime e2 = JVal t2
         ∧ agree_but_lastRequestTime e1 e2).
Proof.
  split; [apply queries_clock_free_cases|].
  intros q r e -> He. rewrite !(queries_FETCH_REQUEST_own _ S q r e He).
  do 2 eexists. split; [reflexivity|]. split; [reflexivity|].
  by repeat split.
Qed.

(** C4: STORE_RESET.  The keys of the new state are the keys of the old one
    that are in the allow-list, and each of them is mapped to the entry it
    had; a key outside the allow-list, and an allow-listed id that the old
    state lacks, has no entry. *)
Theorem queries_STORE_RESET now S observableQueryIds :
  dom (queries now S (STORE_RESET observableQueryIds))
    = filter (λ queryId, queryId ∈ observableQueryIds) (dom S)
  ∧ ∀ queryId,
      queries now S (STORE_RESET observableQueryIds) !! queryId
      = if decide (queryId ∈ observableQueryIds) then S !! queryId else None.
Proof.
  unfold queries. simpl. split; [|apply resetQueryState_lookup].
  apply set_eq. intros k.
  rewrite elem_of_filter, !elem_of_dom, resetQueryState_lookup.
  case_decide as Hin.
  - split; [intros Hk; by split | by intros [_ Hk]].
  - split; [intros [? ?]; discriminate | by intros [? _]].
Qed.

(** X16: QUERY_INIT, for a query id other than [__proto__].  The entry at
    the action's query id is inserted or overwritten by one with loading
    true, stopped false, inFlight false, no errors, no request id or time,
    and the query, variables, poll interval, flags and fragment map of the
    action.  Its previousVariables are the variables of the entry that was
    there when the action asks to store them and they differ from the
    action's variables, and undefined otherwise. *)
Theorem queries_QUERY_INIT now S a :
  init_queryId a ≠ "__proto__" →
  ∃ e', queries now S (QUERY_INIT a) = <[init_queryId a := e']> S
    ∧ loading e' = JVal true
    ∧ stopped e' = JVal false
    ∧ inFlight e' = JVal false
    ∧ networkError e' = JNull
    ∧ graphQLErrors e' = JNull
    ∧ lastRequestTime e' = JNull
    ∧ lastRequestId e' = JNull
    ∧ queryString e' = init_queryString a
    ∧ query e' = init_query a
    ∧ variables e' = init_variables a
    ∧ pollInterval e' = init_pollInterval a
    ∧ forceFetch e' = init_forceFetch a
    ∧ returnPartialData e' = init_returnPartialData a
    ∧ fragmentMap e' = init_fragmentMap a
    ∧ (∀ previousQuery,
         init_storePreviousVariables a = true →
         S !! init_queryId a = Some previousQuery →
         variables previousQuery ≠ init_variables a →
         previousVariables e' = variables previousQuery)
    ∧ (init_storePreviousVariables a = false
       ∨ S !! init_queryId a = None
       ∨ (∃ previousQuery, S !! init_queryId a = Some previousQuery
                           ∧ variables previousQuery = init_variables a) →
       previousVariables e' = JUndefined).
Proof.
  intros Hne. rewrite (queries_QUERY_INIT_own now S a) by eauto.
  entry_fields; simpl; unfold initPreviousVariables.
  - intros q Hstore Hq Hdiff. rewrite (getProperty_own S _ q Hq), Hstore.
    simpl. unfold isEqual. by rewrite bool_decide_eq_false_2.
  - intros [Hstore | [Hnone | (q & Hq & Heq)]].
    + by rewrite Hstore.
    + unfold getProperty. rewrite Hnone.
      destruct (inherited (init_queryId a)); simpl;
        [|by rewrite andb_false_r].
      destruct (init_storePreviousVariables a); simpl; [|done].
      by destruct (negb _).
    + rewrite (getProperty_own S _ q Hq). simpl. unfold isEqual.
      rewrite bool_decide_eq_true_2 by done.
      by destruct (init_storePreviousVariables a).
Qed.

(** X17: FETCH_REQUEST.  A query id under which the state has no own
    property and which is no name of [Object.prototype] leaves the state as
    it is; for a query id that has an entry, the entry is replaced by one
    with inFlight true, lastRequestId the action's request id,
    lastRequestTime the time of the call, and every other field as
    before. *)
Theorem queries_FETCH_REQUEST now S queryId requestId :
  let S' := queries now S (FETCH_REQUEST queryId requestId) in
  (S !! queryId = None → inherited queryId = false → S' = S)
  ∧ (∀ e, S !! queryId = Some e →
       ∃ e', S' = <[queryId := e']> S
         ∧ inFlight e' = JVal true
         ∧ lastRequestId e' = JVal requestId
         ∧ lastRequestTime e' = JVal now
         ∧ queryString e' = queryString e ∧ query e' = query e
         ∧ variables e' = variables e
         ∧ previousVariables e' = previousVariables e
         ∧ loading e' = loading e ∧ stopped e' = stopped e
         ∧ pollInterval e' = pollInterval e
         ∧ networkError e' = networkError e
         ∧ graphQLErrors e' = graphQLErrors e
         ∧ forceFetch e' = forceFetch e
         ∧ returnPartialData e' = returnPartialData e
         ∧ fragmentMap e' = fragmentMap e).
Proof.
  cbv zeta. split.
  - intros Hk Hin. by apply (queries_guarded_absent now S _ queryId).
  - intros e He. rewrite (queries_FETCH_REQUEST_own _ _ _ _ e He).
    entry_fields.
Qed.

(** X18: QUERY_ERROR.  A query id under which the state has no own property
    and which is no name of [Object.prototype], or a request id that
    JavaScript's [<] puts below the entry's lastRequestId (for a numeric
    lastRequestId: strictly below it), leaves the state as it is.
    Otherwise the entry is replaced by one with loading false, inFlight
    false and networkError the action's error, every other field as
    before. *)
Theorem queries_QUERY_ERROR now S queryId requestId error :
  let S' := queries now S (QUERY_ERROR queryId requestId error) in
  (S !! queryId = None → inherited queryId = false → S' = S)
  ∧ (∀ e, S !! queryId = Some e →
       js_lt requestId (lastRequestId e) = true → S' = S)
  ∧ (∀ e n, S !! queryId = Some e →
       lastRequestId e = JVal n → requestId < n → S' = S)
  ∧ (∀ e, S !! queryId = Some e →
       js_lt requestId (lastRequestId e) = false →
       ∃ e', S' = <[queryId := e']> S
         ∧ loading e' = JVal false
         ∧ inFlight e' = JVal false
         ∧ networkError e' = error
         ∧ queryString e' = queryString e ∧ query e' = query e
         ∧ variables e' = variables e
         ∧ previousVariables e' = previousVariables e
         ∧ stopped e' = stopped e
         ∧ pollInterval e' = pollInterval e
         ∧ lastRequestTime e' = lastRequestTime e
         ∧ graphQLErrors e' = graphQLErrors e
         ∧ forceFetch e' = forceFetch e
         ∧ returnPartialData e' = returnPartialData e
         ∧ lastRequestId e' = lastRequestId e
         ∧ fragmentMap e' = fragmentMap e).
Proof.
  cbv zeta. repeat split.
  - intros Hk Hin. by apply (queries_guarded_absent now S _ queryId).
  - intros e He Hlt. by rewrite (queries_QUERY_ERROR_own _ _ _ _ _ e He), Hlt.
  - intros e n He Hn Hlt. rewrite (queries_QUERY_ERROR_own _ _ _ _ _ e He), Hn.
    by rewrite (proj2 (js_lt_val requestId n) Hlt).
  - intros e He Hlt. rewrite (queries_QUERY_ERROR_own _ _ _ _ _ e He), Hlt.
    entry_fields.
Qed.

(** X19: QUERY_STOP on a query id, other than [__proto__], under which the
    state has no own property changes the state: it adds an entry for that
    id in which loading is false, stopped is true and nothing else is
    set. *)
Theorem queries_QUERY_STOP_unknown now S queryId :
  S !! queryId = None → queryId ≠ "__proto__" →
  queries now S (QUERY_STOP queryId) ≠ S
  ∧ ∃ e', queries now S (QUERY_STOP queryId) = <[queryId := e']> S
      ∧ loading e' = JVal false
      ∧ stopped e' = JVal true
      ∧ queryString e' = JUndefined ∧ query e' = JUndefined
      ∧ variables e' = JUndefined ∧ previousVariables e' = JUndefined
      ∧ pollInterval e' = JUndefined ∧ inFlight e' = JUndefined
      ∧ lastRequestTime e' = JUndefined ∧ networkError e' = JUndefined
      ∧ graphQLErrors e' = JUndefined ∧ forceFetch e' = JUndefined
      ∧ returnPartialData e' = JUndefined ∧ lastRequestId e' = JUndefined
      ∧ fragmentMap e' = JUndefined.
Proof.
  intros Hnone Hne. rewrite (queries_QUERY_STOP_absent now S queryId Hnone Hne).
  split.
  - intros Heq. apply (f_equal (λ m, m !! queryId)) in Heq.
    rewrite lookup_insert_eq, Hnone in Heq. discriminate.
  - entry_fields.
Qed.

(** X2: QUERY_RESULT_CLIENT.  A query id under which the state has no own
    property and which is no name of [Object.prototype] leaves the state as
    it is; for a query id that has an entry, and whatever the request id of
    the entry, the entry is replaced by one with loading the negation of
    [complete], networkError null, previousVariables null and every other
    field as before. *)
Theorem queries_QUERY_RESULT_CLIENT now S queryId complete :
  let S' := queries now S (QUERY_RESULT_CLIENT queryId complete) in
  (S !! queryId = None → inherited queryId = false → S' = S)
  ∧ (∀ e, S !! queryId = Some e →
       ∃ e', S' = <[queryId := e']> S
         ∧ loading e' = JVal (negb complete)
         ∧ networkError e' = JNull
         ∧ previousVariables e' = JNull
         ∧ queryString e' = queryString e ∧ query e' = query e
         ∧ variables e' = variables e ∧ stopped e' = stopped e
         ∧ pollInterval e' = pollInterval e ∧ inFlight e' = inFlight e
         ∧ lastRequestTime e' = lastRequestTime e
         ∧ graphQLErrors e' = graphQLErrors e
         ∧ forceFetch e' = forceFetch e
         ∧ returnPartialData e' = returnPartialData e
         ∧ lastRequestId e' = lastRequestId e
         ∧ fragmentMap e' = fragmentMap e).
Proof.
  cbv zeta. split.
  - intros Hk Hin. by apply (queries_guarded_absent now S _ queryId).
  - intros e He. rewrite (queries_QUERY_RESULT_CLIENT_own _ _ _ _ e He).
    entry_fields.
Qed.

(** X20: the unknown-id guards let the names of [Object.prototype] pass.
    For a query id that names a function of [Object.prototype] and under
    which the state has no own property, FETCH_REQUEST, QUERY_RESULT (with
    any request id), QUERY_ERROR (with any request id) and
    QUERY_RESULT_CLIENT do not return the state as it is: they add an entry
    under that id which holds the fields the branch assigns and nothing
    else, and FETCH_REQUEST reads the clock for it. *)
Theorem queries_guards_pass_inherited now S queryId :
  S !! queryId = None → inherited queryId = true → queryId ≠ "__proto__" →
  (∀ requestId,
     queries now S (FETCH_REQUEST queryId requestId) ≠ S
     ∧ queries now S (FETCH_REQUEST queryId requestId)
       = <[queryId := assignFetchRequest emptyObject requestId now]> S)
  ∧ (∀ requestId result,
       queries now S (QUERY_RESULT queryId requestId result) ≠ S
       ∧ queries now S (QUERY_RESULT queryId requestId result)
         = <[queryId := assignResult emptyObject
                          (if graphQLResultHasError result then errors result
                           else JNull)]> S)
  ∧ (∀ requestId error,
       queries now S (QUERY_ERROR queryId requestId error) ≠ S
       ∧ queries now S (QUERY_ERROR queryId requestId error)
         = <[queryId := assignError emptyObject error]> S)
  ∧ (∀ complete,
       queries now S (QUERY_RESULT_CLIENT queryId complete) ≠ S
       ∧ queries now S (QUERY_RESULT_CLIENT queryId complete)
         = <[queryId := assignResultClient emptyObject complete]> S).
Proof.
  intros Hk Hin Hne.
  destruct (queries_guarded_inherited now S queryId Hk Hin Hne)
    as (Hf & Hr & He & Hc).
  assert (Hadds : ∀ x, <[queryId := x]> S ≠ S).
  { intros x Heq. apply (f_equal (λ m, m !! queryId)) in Heq.
    rewrite lookup_insert_eq, Hk in Heq. discriminate. }
  repeat split; intros; rewrite ?Hf, ?Hr, ?He, ?Hc; by try apply Hadds.
Qed.

(** X21: a write under [__proto__] defines no property.  On a state without
    an own property [__proto__], every action that carries the query id
    [__proto__] (QUERY_INIT and QUERY_STOP, and the guarded branches, whose
    guard [Object.prototype] itself passes) returns an object with the own
    properties of the state it was given, no entry added, whose prototype
    is the entry the branch built; with any other query id, and for
    STORE_RESET and actions the reducer does not handle, the prototype of
    the object returned is [Object.prototype]. *)
Theorem queries_object_proto now S action :
  S !! "__proto__" = None →
  (action_queryId action = Some "__proto__" →
     properties (queries_object now S action) = S
     ∧ prototype (queries_object now S action)
       = match action with
         | QUERY_INIT a => Some (initEntry a JUndefined)
         | FETCH_REQUEST _ requestId =>
             Some (assignFetchRequest emptyObject requestId now)
         | QUERY_RESULT _ _ result =>
             Some (assignResult emptyObject
                     (if graphQLResultHasError result then errors result
                      else JNull))
         | QUERY_ERROR _ _ error => Some (assignError emptyObject error)
         | QUERY_RESULT_CLIENT _ complete =>
             Some (assignResultClient emptyObject complete)
         | QUERY_STOP _ => Some (assignStop emptyObject)
         | STORE_RESET _ | OTHER_ACTION => None
         end)
  ∧ (action_queryId action ≠ Some "__proto__" →
     prototype (queries_object now S action) = None).
Proof.
  intros Hk. split.
  - intros Hid. split; [by apply (queries_proto_properties now S action)|].
    unfold queries_object.
    destruct action as [a|q r|q r res|q r err|q c|q|ids|];
      simpl in Hid; simplify_eq;
      try rewrite Hid;
      rewrite ?(getProperty_inherited S "__proto__" Hk inherited_proto);
      cbn [truthy negb assign_from property_lastRequestId js_lt];
      rewrite setProperty_proto by done; simpl; [|done..].
    unfold initPreviousVariables. simpl.
    destruct (init_storePreviousVariables a); simpl; [|done].
    by destruct (negb _).
  - intros Hid. unfold queries_object.
    destruct action as [a|q r|q r res|q r err|q c|q|ids|]; simpl in Hid;
      repeat match goal with
             | |- context [if ?b then _ else _] => destruct b
             end;
      try done;
      rewrite setProperty_own; try done; left; congruence.
Qed.

End ReducerFacts.

(** * Further properties of the reducer *)

Section ReducerAlgebra.
Context `{Imports}.
Implicit Types (S : QueryStore) (e : QueryStoreValue) (now : Date).

(** What an action leaves under a query id that has an entry: the entry as
    it was, or the one its branch writes. *)
Lemma queries_lookup_known now S action queryId e :
  S !! queryId = Some e →
  queries now S action !! queryId =
    match action with
    | QUERY_INIT a =>
        if decide (init_queryId a = queryId)
        then Some (initEntry a (initPreviousVariables (OwnEntry e) a))
        else Some e
    | FETCH_REQUEST q requestId =>
        if decide (q = queryId) then Some (assignFetchRequest e requestId now)
        else Some e
    | QUERY_RESULT q requestId result =>
        if decide (q = queryId) then
          if js_lt requestId (lastRequestId e) then Some e
          else Some (assignResult e
                       (if graphQLResultHasError result then errors result
                        else JNull))
        else Some e
    | QUERY_ERROR q requestId error =>
        if decide (q = queryId) then
          if js_lt requestId (lastRequestId e) then Some e
          else Some (assignError e error)
        else Some e
    | QUERY_RESULT_CLIENT q complete =>
        if decide (q = queryId) then Some (assignResultClient e complete)
        else Some e
    | QUERY_STOP q =>
        if decide (q = queryId) then Some (assignStop e) else Some e
    | STORE_RESET observableQueryIds =>
        if decide (queryId ∈ observableQueryIds) then Some e else None
    | OTHER_ACTION => Some e
    end.
Proof.
  intros He.
  destruct action as [a|q r|q r res|q r err|q c|q|ids|].
  - case_decide as Hq.
    + rewrite (queries_QUERY_INIT_own now S a) by (rewrite Hq; eauto).
      rewrite Hq, (getProperty_own S queryId e He). apply lookup_insert_eq.
    + by rewrite (queries_frame now S _ (init_queryId a) queryId).
  - case_decide as Hq.
    + subst q. rewrite (queries_FETCH_REQUEST_own _ _ _ _ e He).
      apply lookup_insert_eq.
    + by rewrite (queries_frame now S _ q queryId).
  - case_decide as Hq.
    + subst q. rewrite (queries_QUERY_RESULT_own _ _ _ _ _ e He).
      destruct (js_lt r (lastRequestId e)); [done | apply lookup_insert_eq].
    + by rewrite (queries_frame now S _ q queryId).
  - case_decide as Hq.
    + subst q. rewrite (queries_QUERY_ERROR_own _ _ _ _ _ e He).
      destruct (js_lt r (lastRequestId e)); [done | apply lookup_insert_eq].
    + by rewrite (queries_frame now S _ q queryId).
  - case_decide as Hq.
    + subst q. rewrite (queries_QUERY_RESULT_CLIENT_own _ _ _ _ e He).
      apply lookup_insert_eq.
    + by rewrite (queries_frame now S _ q queryId).
  - case_decide as Hq.
    + subst q. rewrite (queries_QUERY_STOP_own _ _ _ e He).
      apply lookup_insert_eq.
    + by rewrite (queries_frame now S _ q queryId).
  - unfold queries. simpl. rewrite resetQueryState_lookup.
    by case_decide.
  - done.
Qed.

(** X1: the inFlight flag of a query that is in flight.  Whatever the
    action, the entry it leaves for the query has inFlight true, three
    cases apart in which it has inFlight false; and in each of the three
    cases it does have inFlight false: a QUERY_INIT for the query, and a
    QUERY_RESULT or QUERY_ERROR for it that the staleness guard lets
    through.  QUERY_STOP and QUERY_RESULT_CLIENT for the query leave the
    flag set, and a stale QUERY_RESULT or QUERY_ERROR leaves the entry as it
    is. *)
Theorem inFlight_cleared_only_by now S queryId e :
  S !! queryId = Some e → inFlight e = JVal true →
  (∀ action e',
     queries now S action !! queryId = Some e' →
     inFlight e' = JVal true
     ∨ (inFlight e' = JVal false
        ∧ ((∃ a, action = QUERY_INIT a ∧ init_queryId a = queryId)
           ∨ (∃ requestId result,
                action = QUERY_RESULT queryId requestId result
                ∧ js_lt requestId (lastRequestId e) = false)
           ∨ (∃ requestId error,
                action = QUERY_ERROR queryId requestId error
                ∧ js_lt requestId (lastRequestId e) = false))))
  ∧ (∀ a, init_queryId a = queryId →
       ∃ e', queries now S (QUERY_INIT a) !! queryId = Some e'
             ∧ inFlight e' = JVal false)
  ∧ (∀ requestId result,
       js_lt requestId (lastRequestId e) = false →
       ∃ e', queries now S (QUERY_RESULT queryId requestId result) !! queryId
             = Some e'
             ∧ inFlight e' = JVal false)
  ∧ (∀ requestId error,
       js_lt requestId (lastRequestId e) = false →
       ∃ e', queries now S (QUERY_ERROR queryId requestId error) !! queryId
             = Some e'
             ∧ inFlight e' = JVal false)
  ∧ (∃ e', queries now S (QUERY_STOP queryId) !! queryId = Some e'
           ∧ inFlight e' = JVal true)
  ∧ (∀ complete,
       ∃ e', queries now S (QUERY_RESULT_CLIENT queryId complete) !! queryId
             = Some e'
             ∧ inFlight e' = JVal true)
  ∧ (∀ requestId result error,
       js_lt requestId (lastRequestId e) = true →
       queries now S (QUERY_RESULT queryId requestId result) !! queryId
       = Some e
       ∧ queries now S (QUERY_ERROR queryId requestId error) !! queryId
         = Some e).
Proof.
  intros He Hfl. repeat split.
  - intros action e' Hnew.
    rewrite (queries_lookup_known now S action queryId e He) in Hnew.
    destruct action as [a|q r|q r res|q r err|q c|q|ids|];
      repeat case_decide; simplify_eq; try (left; done).
    + right. split; [done|]. left. by exists a.
    + destruct (js_lt r (lastRequestId e)) eqn:Hlt; simplify_eq;
        [by left|].
      right. split; [done|]. right. left. by exists r, res.
    + destruct (js_lt r (lastRequestId e)) eqn:Hlt; simplify_eq;
        [by left|].
      right. split; [done|]. right. right. by exists r, err.
  - intros a Ha. rewrite (queries_lookup_known now S _ queryId e He).
    rewrite decide_True by done. eauto.
  - intros r res Hlt. rewrite (queries_lookup_known now S _ queryId e He).
    rewrite decide_True by done. rewrite Hlt. eauto.
  - intros r err Hlt. rewrite (queries_lookup_known now S _ queryId e He).
    rewrite decide_True by done. rewrite Hlt. eauto.
  - rewrite (queries_lookup_known now S _ queryId e He).
    rewrite decide_True by done. eauto.
  - intros c. rewrite (queries_lookup_known now S _ queryId e He).
    rewrite decide_True by done. eauto.
  - rewrite (queries_lookup_known now S _ queryId e He).
    rewrite decide_True by done.
    match goal with Hlt : js_lt _ _ = true |- _ => by rewrite Hlt end.
  - rewrite (queries_lookup_known now S _ queryId e He).
    rewrite decide_True by done.
    match goal with Hlt : js_lt _ _ = true |- _ => by rewrite Hlt end.
Qed.

(** X3: the query ids of the new state.  STORE_RESET keeps the ids of the
    allow-list; no other action removes an id; an id is added only under
    the query id of the action, never under [__proto__], and only by
    QUERY_INIT or QUERY_STOP or, for the guarded branches, when the id is a
    name of [Object.prototype]; QUERY_INIT and QUERY_STOP leave an entry
    under every query id other than [__proto__]. *)
Theorem queries_dom now S action :
  (∀ ids, action = STORE_RESET ids →
     dom (queries now S action) = filter (λ queryId, queryId ∈ ids) (dom S))
  ∧ ((∀ ids, action ≠ STORE_RESET ids) → dom S ⊆ dom (queries now S action))
  ∧ (∀ k, k ∈ dom (queries now S action) →
       k ∈ dom S
       ∨ (action_queryId action = Some k ∧ k ≠ "__proto__"
          ∧ ((∃ a, action = QUERY_INIT a) ∨ action = QUERY_STOP k
             ∨ inherited k = true)))
  ∧ (∀ queryId, queryId ≠ "__proto__" →
       (∃ a, action = QUERY_INIT a ∧ init_queryId a = queryId)
       ∨ action = QUERY_STOP queryId →
       queryId ∈ dom (queries now S action)).
Proof.
  split; [|split; [|split]].
  - intros ids ->. unfold queries. simpl. apply set_eq. intros k.
    rewrite elem_of_filter, !elem_of_dom, resetQueryState_lookup.
    case_decide as Hin.
    + split; [intros Hk; by split | by intros [_ Hk]].
    + split; [intros [? ?]; discriminate | by intros [? _]].
  - intros Hreset k [e He]%elem_of_dom. apply elem_of_dom.
    rewrite (queries_lookup_known now S action k e He).
    destruct action as [a|q r|q r res|q r err|q c|q|ids|];
      repeat case_decide; try destruct (js_lt _ _); eauto.
    by destruct (Hreset ids).
  - intros k [x Hx]%elem_of_dom.
    destruct (S !! k) as [e|] eqn:Hk; [left; apply elem_of_dom; eauto|].
    right.
    destruct (action_queryId action) as [q|] eqn:Hid.
    + destruct (decide (k = q)) as [->|Hne].
      2:{ rewrite (queries_frame now S action q k Hid Hne), Hk in Hx.
          discriminate. }
      assert (Hproto : q ≠ "__proto__").
      { intros ->.
        rewrite (queries_proto_properties now S action Hk Hid), Hk in Hx.
        discriminate. }
      split; [done|]. split; [done|].
      destruct (inherited q) eqn:Hin; [by right; right|].
      destruct action as [a|q' r|q' r res|q' r err|q' c|q'|ids|];
        simpl in Hid; simplify_eq;
        try (rewrite (queries_guarded_absent now S _ q Hk Hin) in Hx;
             [congruence | done]).
      * left. by exists a.
      * right. by left.
    + destruct action as [a|q r|q r res|q r err|q c|q|ids|];
        simpl in Hid; simplify_eq.
      * unfold queries in Hx. simpl in Hx.
        rewrite resetQueryState_lookup in Hx. case_decide; congruence.
      * unfold queries in Hx. simpl in Hx. congruence.
  - intros q Hne [(a & -> & Ha) | ->]; apply elem_of_dom.
    + rewrite (queries_QUERY_INIT_own now S a) by (left; congruence).
      rewrite Ha, lookup_insert_eq. eauto.
    + destruct (S !! q) as [e|] eqn:Hq.
      * rewrite (queries_QUERY_STOP_own now S q e Hq), lookup_insert_eq. eauto.
      * rewrite (queries_QUERY_STOP_absent now S q Hq Hne), lookup_insert_eq.
        eauto.
Qed.

(** One step that leaves the request id of [queryId] alone. *)
Lemma leavesRequestId_step now S action queryId e :
  S !! queryId = Some e → leavesRequestId queryId action = true →
  ∃ e', queries now S action !! queryId = Some e'
        ∧ lastRequestId e' = lastRequestId e.
Proof.
  intros He Hleaves.
  rewrite (queries_lookup_known now S action queryId e He).
  destruct action as [a|q r|q r res|q r err|q c|q|ids|]; simpl in Hleaves;
    try apply bool_decide_eq_true in Hleaves;
    repeat case_decide; try destruct (js_lt _ _); simplify_eq; eauto;
    done.
Qed.

Lemma leavesRequestId_run S dispatched queryId e :
  S !! queryId = Some e →
  Forall (λ step, leavesRequestId queryId step.2 = true) dispatched →
  ∃ e', queries_seq S dispatched !! queryId = Some e'
        ∧ lastRequestId e' = lastRequestId e.
Proof.
  intros He Hall. revert S e He.
  induction Hall as [|[t a] steps Ha _ IH]; intros S e He; [by eauto|].
  unfold queries_seq. cbn [foldl].
  destruct (leavesRequestId_step t S a queryId e He Ha) as (e1 & He1 & Hid1).
  destruct (IH _ e1 He1) as (e' & He' & Hid').
  exists e'. split; [exact He' | congruence].
Qed.

(** X4: the last request fired wins.  Once a FETCH_REQUEST with request id
    [r2] was reduced for a known query, and whatever was dispatched since,
    as long as it was no QUERY_INIT and no further FETCH_REQUEST for this
    query and no STORE_RESET without it, a QUERY_RESULT or a QUERY_ERROR
    that answers an earlier request [r1 < r2] leaves the state as it is. *)
Theorem stale_response_ignored t now S queryId r1 r2 dispatched result error :
  is_Some (S !! queryId) → r1 < r2 →
  Forall (λ step, leavesRequestId queryId step.2 = true) dispatched →
  let S' := queries_seq (queries t S (FETCH_REQUEST queryId r2)) dispatched in
  queries now S' (QUERY_RESULT queryId r1 result) = S'
  ∧ queries now S' (QUERY_ERROR queryId r1 error) = S'.
Proof.
  intros [e He] Hlt Hall S'.
  assert (Hfetch : queries t S (FETCH_REQUEST queryId r2) !! queryId
                   = Some (assignFetchRequest e r2 t)).
  { rewrite (queries_FETCH_REQUEST_own _ _ _ _ e He). apply lookup_insert_eq. }
  destruct (leavesRequestId_run _ dispatched queryId _ Hfetch Hall)
    as (e' & He' & Hid). simpl in Hid. fold S' in He'.
  assert (Hstale : js_lt r1 (lastRequestId e') = true).
  { rewrite Hid. by apply js_lt_val. }
  split.
  - by rewrite (queries_QUERY_RESULT_own _ _ _ _ _ e' He'), Hstale.
  - by rewrite (queries_QUERY_ERROR_own _ _ _ _ _ e' He'), Hstale.
Qed.

(** X5: QUERY_INIT forgets the requests made so far.  It resets
    lastRequestId to null, which compares as 0: a QUERY_RESULT or QUERY_ERROR
    reduced right after it is accepted as soon as its request id is not
    negative, however large the request id of the entry was before.  (For
    a query id other than [__proto__], under which no entry is stored.) *)
Theorem queries_QUERY_INIT_accepts_any_response t now S a requestId result error :
  init_queryId a ≠ "__proto__" → 0 ≤ requestId →
  let S1 := queries t S (QUERY_INIT a) in
  (∃ e', queries now S1 (QUERY_RESULT (init_queryId a) requestId result)
         = <[init_queryId a := e']> S1
         ∧ loading e' = JVal false ∧ inFlight e' = JVal false
         ∧ networkError e' = JNull)
  ∧ (∃ e', queries now S1 (QUERY_ERROR (init_queryId a) requestId error)
           = <[init_queryId a := e']> S1
           ∧ loading e' = JVal false ∧ inFlight e' = JVal false
           ∧ networkError e' = error).
Proof.
  intros Hne Hr S1.
  assert (Hfresh : (requestId <? 0) = false) by (apply Z.ltb_ge; lia).
  assert (Hnew : S1 !! init_queryId a
                 = Some (initEntry a (initPreviousVariables
                                        (getProperty S (init_queryId a)) a))).
  { unfold S1. rewrite (queries_QUERY_INIT_own t S a) by eauto.
    apply lookup_insert_eq. }
  split.
  - rewrite (queries_QUERY_RESULT_own _ _ _ _ _ _ Hnew). simpl.
    rewrite Hfresh. eexists. split; [reflexivity | repeat split].
  - rewrite (queries_QUERY_ERROR_own _ _ _ _ _ _ Hnew). simpl.
    rewrite Hfresh. eexists. split; [reflexivity | repeat split].
Qed.

(** X6: a stopped query stays stopped.  If the entry of a query has stopped
    true, the entry any action leaves for that query has stopped true as
    well, unless the action is a QUERY_INIT for the query, which does set
    it to false.  A result or an error that arrives for a stopped query,
    and passes the staleness guard, is written into its entry all the
    same, and so is a client result; only the stopped flag is kept. *)
Theorem stopped_cleared_only_by now S queryId e :
  S !! queryId = Some e → stopped e = JVal true →
  (∀ action e',
     queries now S action !! queryId = Some e' →
     stopped e' = JVal true
     ∨ (stopped e' = JVal false
        ∧ ∃ a, action = QUERY_INIT a ∧ init_queryId a = queryId))
  ∧ (∀ a, init_queryId a = queryId →
       ∃ e', queries now S (QUERY_INIT a) !! queryId = Some e'
             ∧ stopped e' = JVal false)
  ∧ (∀ requestId result,
       js_lt requestId (lastRequestId e) = false →
       ∃ e', queries now S (QUERY_RESULT queryId requestId result) !! queryId
             = Some e'
             ∧ stopped e' = JVal true
             ∧ loading e' = JVal false ∧ inFlight e' = JVal false
             ∧ networkError e' = JNull
             ∧ graphQLErrors e'
               = (if graphQLResultHasError result then errors result
                  else JNull))
  ∧ (∀ requestId error,
       js_lt requestId (lastRequestId e) = false →
       ∃ e', queries now S (QUERY_ERROR queryId requestId error) !! queryId
             = Some e'
             ∧ stopped e' = JVal true
             ∧ loading e' = JVal false ∧ inFlight e' = JVal false
             ∧ networkError e' = error)
  ∧ (∀ complete,
       ∃ e', queries now S (QUERY_RESULT_CLIENT queryId complete) !! queryId
             = Some e'
             ∧ stopped e' = JVal true
             ∧ loading e' = JVal (negb complete)
             ∧ networkError e' = JNull).
Proof.
  intros He Hst. split; [|split; [|split; [|split]]].
  - intros action e' Hnew.
    rewrite (queries_lookup_known now S action queryId e He) in Hnew.
    destruct action as [a|q r|q r res|q r err|q c|q|ids|];
      repeat case_decide; try destruct (js_lt _ _);
      simplify_eq; try (left; done).
    right. split; [done|]. by exists a.
  - intros a Ha. rewrite (queries_lookup_known now S _ queryId e He).
    rewrite decide_True by done. eauto.
  - intros r res Hlt. rewrite (queries_lookup_known now S _ queryId e He).
    rewrite decide_True by done. rewrite Hlt.
    eexists. split; [reflexivity|]. by repeat split.
  - intros r err Hlt. rewrite (queries_lookup_known now S _ queryId e He).
    rewrite decide_True by done. rewrite Hlt.
    eexists. split; [reflexivity|]. by repeat split.
  - intros c. rewrite (queries_lookup_known now S _ queryId e He).
    rewrite decide_True by done.
    eexists. split; [reflexivity|]. by repeat split.
Qed.

(** X7: reducing an action a second time, at the same clock reading,
    changes nothing, for every action but QUERY_INIT. *)
Theorem queries_idempotent now S action :
  (∀ a, action ≠ QUERY_INIT a) →
  queries now (queries now S action) action = queries now S action.
Proof.
  intros Hinit.
  destruct (action_queryId action) as [q|] eqn:Hid.
  2:{ destruct action as [a|q r|q r res|q r err|q c|q|ids|];
        simpl in Hid; simplify_eq; [|done].
      unfold queries. simpl. apply map_eq. intros k.
      rewrite !resetQueryState_lookup. by case_decide. }
  destruct (S !! q) as [e|] eqn:Hq.
  - destruct action as [a|q' r|q' r res|q' r err|q' c|q'|ids|];
      simpl in Hid; simplify_eq.
    + by destruct (Hinit a).
    + rewrite (queries_FETCH_REQUEST_own _ _ _ _ e Hq).
      rewrite (queries_FETCH_REQUEST_own _ _ _ _ _ (lookup_insert_eq _ _ _)).
      apply insert_insert_eq.
    + rewrite (queries_QUERY_RESULT_own _ _ _ _ _ e Hq).
      destruct (js_lt r (lastRequestId e)) eqn:Hlt.
      * by rewrite (queries_QUERY_RESULT_own _ _ _ _ _ e Hq), Hlt.
      * rewrite (queries_QUERY_RESULT_own _ _ _ _ _ _ (lookup_insert_eq _ _ _)).
        simpl. rewrite Hlt. apply insert_insert_eq.
    + rewrite (queries_QUERY_ERROR_own _ _ _ _ _ e Hq).
      destruct (js_lt r (lastRequestId e)) eqn:Hlt.
      * by rewrite (queries_QUERY_ERROR_own _ _ _ _ _ e Hq), Hlt.
      * rewrite (queries_QUERY_ERROR_own _ _ _ _ _ _ (lookup_insert_eq _ _ _)).
        simpl. rewrite Hlt. apply insert_insert_eq.
    + rewrite (queries_QUERY_RESULT_CLIENT_own _ _ _ _ e Hq).
      rewrite (queries_QUERY_RESULT_CLIENT_own _ _ _ _ _
                 (lookup_insert_eq _ _ _)).
      rewrite insert_insert_eq. by destruct c.
    + rewrite (queries_QUERY_STOP_own _ _ _ e Hq).
      rewrite (queries_QUERY_STOP_own _ _ _ _ (lookup_insert_eq _ _ _)).
      apply insert_insert_eq.
  - destruct (decide (q = "__proto__")) as [->|Hproto].
    { by rewrite !(queries_proto_properties now S action Hq Hid). }
    destruct (inherited q) eqn:Hin.
    + destruct (queries_guarded_inherited now S q Hq Hin Hproto)
        as (Hf & Hr & He & Hc).
      destruct action as [a|q' r|q' r res|q' r err|q' c|q'|ids|];
        simpl in Hid; simplify_eq.
      * by destruct (Hinit a).
      * rewrite Hf.
        rewrite (queries_FETCH_REQUEST_own _ _ _ _ _ (lookup_insert_eq _ _ _)).
        apply insert_insert_eq.
      * rewrite Hr.
        rewrite (queries_QUERY_RESULT_own _ _ _ _ _ _ (lookup_insert_eq _ _ _)).
        simpl. apply insert_insert_eq.
      * rewrite He.
        rewrite (queries_QUERY_ERROR_own _ _ _ _ _ _ (lookup_insert_eq _ _ _)).
        simpl. apply insert_insert_eq.
      * rewrite Hc.
        rewrite (queries_QUERY_RESULT_CLIENT_own _ _ _ _ _
                   (lookup_insert_eq _ _ _)).
        rewrite insert_insert_eq. by destruct c.
      * rewrite (queries_QUERY_STOP_absent now S q Hq Hproto).
        rewrite (queries_QUERY_STOP_own _ _ _ _ (lookup_insert_eq _ _ _)).
        apply insert_insert_eq.
    + destruct action as [a|q' r|q' r res|q' r err|q' c|q'|ids|];
        simpl in Hid; simplify_eq;
        try (by rewrite !(queries_guarded_absent now S _ q Hq Hin)).
      * by destruct (Hinit a).
      * rewrite (queries_QUERY_STOP_absent now S q Hq Hproto).
        rewrite (queries_QUERY_STOP_own _ _ _ _ (lookup_insert_eq _ _ _)).
        apply insert_insert_eq.
Qed.

(** X8: QUERY_INIT is the exception.  Reduced twice (for a query id other
    than [__proto__]), it leaves previousVariables undefined, also when the
    first time it had stored the variables of the entry that was there:
    the second time it finds its own variables in the entry. *)
Theorem queries_QUERY_INIT_twice t1 t2 S a :
  init_queryId a ≠ "__proto__" →
  queries t2 (queries t1 S (QUERY_INIT a)) (QUERY_INIT a)
  = <[init_queryId a := initEntry a JUndefined]> S.
Proof.
  intros Hne.
  rewrite (queries_QUERY_INIT_own t1 S a) by eauto.
  rewrite (queries_QUERY_INIT_own t2 _ a) by eauto.
  rewrite (getProperty_own _ _ _ (lookup_insert_eq _ _ _)), insert_insert_eq.
  unfold initPreviousVariables at 1. simpl. unfold isEqual.
  rewrite bool_decide_eq_true_2 by done.
  by destruct (init_storePreviousVariables a).
Qed.

(** X9: STORE_RESET only drops entries.  The state it returns is a part of
    the state it was given; it is all of it exactly when every query id of
    the state is in the allow-list; two resets in a row keep the entries
    that are in both allow-lists, in whichever order they come. *)
Theorem queries_STORE_RESET_restricts t1 t2 S ids1 ids2 :
  queries t1 S (STORE_RESET ids1) ⊆ S
  ∧ (queries t1 S (STORE_RESET ids1) = S
     ↔ ∀ queryId, is_Some (S !! queryId) → queryId ∈ ids1)
  ∧ (∀ queryId,
       queries t2 (queries t1 S (STORE_RESET ids1)) (STORE_RESET ids2)
         !! queryId
       = if decide (queryId ∈ ids1 ∧ queryId ∈ ids2) then S !! queryId
         else None)
  ∧ queries t2 (queries t1 S (STORE_RESET ids1)) (STORE_RESET ids2)
    = queries t2 (queries t1 S (STORE_RESET ids2)) (STORE_RESET ids1).
Proof.
  unfold queries. simpl. split; [|split; [|split]].
  - apply map_subseteq_spec. intros k x. rewrite resetQueryState_lookup.
    by case_decide.
  - split.
    + intros Heq k [x Hk]. rewrite <- Heq, resetQueryState_lookup in Hk.
      by case_decide.
    + intros Hall. apply map_eq. intros k. rewrite resetQueryState_lookup.
      case_decide as Hin; [done|].
      destruct (S !! k) as [x|] eqn:Hk; [|done].
      destruct Hin. apply Hall. rewrite Hk. eauto.
  - intros k. rewrite !resetQueryState_lookup.
    repeat case_decide; try done; by intuition.
  - apply map_eq. intros k. rewrite !resetQueryState_lookup.
    by repeat case_decide.
Qed.

End ReducerAlgebra.

(** ** The reducer over a heap *)

Section HeapFacts.
Context `{Imports}.
Implicit Types (h : heap) (m : gmap string loc) (S : QueryStore).
Implicit Types (l ps : loc) (e : QueryStoreValue) (now : Date).

Lemma keeps_refl h : keeps h h.
Proof. by intros l o. Qed.

Lemma entryAt_Some h l e : entryAt h l = Some e ↔ h !! l = Some (EntryObject e).
Proof.
  unfold entryAt. destruct (h !! l) as [[? ?|?]|]; split; intros; by simplify_eq.
Qed.

Lemma propsAt_lookup h l m proto :
  h !! l = Some (StoreObject m proto) → propsAt h l = Some m.
Proof. intros Hl. unfold propsAt. by rewrite Hl. Qed.

Lemma protoAt_lookup h l m proto :
  h !! l = Some (StoreObject m proto) → protoAt h l = Some proto.
Proof. intros Hl. unfold protoAt. by rewrite Hl. Qed.

Lemma propsAt_Some h l m :
  propsAt h l = Some m → ∃ proto, h !! l = Some (StoreObject m proto).
Proof.
  unfold propsAt. destruct (h !! l) as [[m' proto|?]|]; intros; simplify_eq.
  by exists proto.
Qed.

Lemma plain_lookup h l m :
  propsAt h l = Some m → protoAt h l = Some None →
  h !! l = Some (StoreObject m None).
Proof.
  unfold propsAt, protoAt.
  destruct (h !! l) as [[m' proto|?]|]; intros; by simplify_eq.
Qed.

Lemma keeps_entryAt h h' l e : keeps h h' → entryAt h l = Some e → entryAt h' l = Some e.
Proof. rewrite !entryAt_Some. intros Hk. apply Hk. Qed.

Lemma fresh_unused h l o : h !! l = Some o → l ≠ fresh (dom h).
Proof.
  intros Hl ->. assert (Hin : fresh (dom h) ∈ dom h) by (apply elem_of_dom; eauto).
  by apply is_fresh in Hin.
Qed.

Lemma fresh_lookup h : h !! fresh (dom h) = None.
Proof. apply not_elem_of_dom, is_fresh. Qed.

Lemma keeps_alloc h o : keeps h (<[fresh (dom h) := o]> h).
Proof.
  intros l o' Hl. rewrite lookup_insert_ne; [done|].
  intros Heq. by apply (fresh_unused h l o').
Qed.

Lemma represents_lookup h m S k :
  S = omap (entryAt h) m → S !! k = m !! k ≫= entryAt h.
Proof. intros ->. apply lookup_omap. Qed.

Lemma omap_keeps h h' m :
  keeps h h' → map_Forall (λ _ le, is_Some (entryAt h le)) m →
  omap (entryAt h') m = omap (entryAt h) m.
Proof.
  intros Hk Hall. apply map_eq. intros k. rewrite !lookup_omap.
  destruct (m !! k) as [le|] eqn:Hle; [simpl|done].
  destruct (Hall k le Hle) as [e He].
  by rewrite He, (keeps_entryAt h h' le e Hk He).
Qed.

Lemma Forall_keeps h h' m :
  keeps h h' → map_Forall (λ _ le, is_Some (entryAt h le)) m →
  map_Forall (λ _ le, is_Some (entryAt h' le)) m.
Proof.
  intros Hk Hall k le Hle. destruct (Hall k le Hle) as [e He].
  exists e. by apply (keeps_entryAt h).
Qed.

Lemma represents_keeps h h' l S : keeps h h' → represents h l S → represents h' l S.
Proof.
  intros Hk (m & Hm & Hp & Hall & ->).
  pose proof (plain_lookup h l m Hm Hp) as Hl. apply Hk in Hl.
  exists m. split; [by apply (propsAt_lookup h' l m None)|].
  split; [by apply (protoAt_lookup h' l m None)|].
  split; [by apply (Forall_keeps h)|].
  symmetry. by apply omap_keeps.
Qed.

(** A plain object, seen as an object. *)
Lemma represents_plainObject h l S :
  represents h l S → representsObject h l (plainObject S).
Proof.
  intros (m & Hm & Hp & Hall & HS). exists m, None. by repeat split.
Qed.

(** What the state object and the map say about one query id. *)
Lemma represented_entry h m S key :
  map_Forall (λ _ le, is_Some (entryAt h le)) m → S = omap (entryAt h) m →
  (m !! key = None ∧ S !! key = None)
  ∨ ∃ l e, m !! key = Some l ∧ h !! l = Some (EntryObject e)
           ∧ S !! key = Some e.
Proof.
  intros Hall HS. rewrite (represents_lookup h m S key HS).
  destruct (m !! key) as [l|] eqn:Hl; [right | by left].
  destruct (Hall key l Hl) as [e He]. exists l, e.
  simpl. rewrite He. split; [done|]. split; [|done]. by apply entryAt_Some.
Qed.

(** *** Running the heap operations *)

Lemma getProp_run h l m key :
  h !! l = Some (StoreObject m None) →
  getProp l key h = Some (readPlain m key, h).
Proof.
  intros Hl. unfold getProp, bind, readStore, ret, readPlain. rewrite Hl.
  simpl. by destruct (m !! key).
Qed.

Lemma assignStore_run h l m proto :
  h !! l = Some (StoreObject m proto) →
  assignStore l h
  = Some (fresh (dom h), <[fresh (dom h) := StoreObject m None]> h).
Proof. intros Hl. unfold assignStore, bind, readStore, newObject. by rewrite Hl. Qed.

Lemma readEntry_run h l e :
  h !! l = Some (EntryObject e) → readEntry l h = Some (e, h).
Proof. intros Hl. unfold readEntry. by rewrite Hl. Qed.

Lemma setProp_run h l m proto key v :
  h !! l = Some (StoreObject m proto) →
  setProp l key v h = Some ((), <[l := written m proto key v]> h).
Proof. intros Hl. unfold setProp. by rewrite Hl. Qed.

Lemma setOwnProp_run h l m proto key v :
  h !! l = Some (StoreObject m proto) →
  setOwnProp l key v h
  = Some ((), <[l := StoreObject (<[key := v]> m) proto]> h).
Proof. intros Hl. unfold setOwnProp. by rewrite Hl. Qed.

(** Reading a plain object on the heap is reading it as a map. *)
Lemma readPlain_property h h1 m S key :
  keeps h h1 →
  map_Forall (λ _ le, is_Some (entryAt h le)) m → S = omap (entryAt h) m →
  readProperty (readPlain m key) h1 = Some (getProperty S key, h1)
  ∧ truthyRef (readPlain m key) = truthy (getProperty S key)
  ∧ readLastRequestId (readPlain m key) h1
    = Some (property_lastRequestId (getProperty S key), h1)
  ∧ ∀ patch,
      assignEntry (readPlain m key) patch h1
      = Some (fresh (dom h1),
              <[fresh (dom h1) :=
                  EntryObject (patch (assign_from (getProperty S key)))]> h1).
Proof.
  intros Hk Hall HS. unfold readPlain, getProperty.
  destruct (represented_entry h m S key Hall HS)
    as [[Hm HSk] | (l & e & Hm & Hl & HSk)]; rewrite Hm, HSk.
  - destruct (inherited key); by repeat split.
  - apply Hk in Hl.
    unfold readProperty, readLastRequestId, assignEntry, bind, newObject.
    rewrite (readEntry_run h1 l e Hl). by repeat split.
Qed.

(** The heap after a new state object (a copy of [m]) and a new entry [e']
    were created in [h] and the entry was written under [key]. *)
Lemma installed_entry h ps m S key e' :
  h !! ps = Some (StoreObject m None) →
  map_Forall (λ _ le, is_Some (entryAt h le)) m →
  S = omap (entryAt h) m →
  let ns := fresh (dom h) in
  let h1 := <[ns := StoreObject m None]> h in
  let le := fresh (dom h1) in
  let h' := <[ns := written m None key le]> (<[le := EntryObject e']> h1) in
  keeps h h'
  ∧ representsObject h' ns (setProperty (plainObject S) key e')
  ∧ (∀ k, k ≠ key → (propsAt h' ns ≫= (.!! k)) = m !! k)
  ∧ h !! ns = None.
Proof.
  intros Hps Hall HS ns h1 le h'.
  assert (Hns : ∀ l o, h !! l = Some o → l ≠ ns) by apply fresh_unused.
  assert (Hle : ∀ l o, h !! l = Some o → l ≠ le).
  { intros l o Hl. apply (fresh_unused h1 l o). unfold h1.
    rewrite lookup_insert_ne; [done|]. intros Heq. by apply (Hns l o). }
  assert (Hne : le ≠ ns).
  { intros Heq. apply (fresh_unused h1 ns (StoreObject m None)); [|done].
    unfold h1. apply lookup_insert_eq. }
  assert (Hkeeps : keeps h h').
  { intros l o Hl. unfold h', h1.
    rewrite !lookup_insert_ne; [done| | |].
    - intros Heq. by apply (Hns l o).
    - intros Heq. by apply (Hle l o).
    - intros Heq. by apply (Hns l o). }
  assert (Hnew : entryAt h' le = Some e').
  { apply entryAt_Some. unfold h'.
    rewrite lookup_insert_ne by done. apply lookup_insert_eq. }
  assert (Hat : h' !! ns = Some (written m None key le)).
  { unfold h'. apply lookup_insert_eq. }
  assert (Hown : m !! key = None ↔ S !! key = None).
  { destruct (represented_entry h m S key Hall HS)
      as [[Hm HSk] | (l & e & Hm & Hl & HSk)]; rewrite Hm, HSk; split;
      by intros. }
  split; [done|]. split; [|split; [|apply fresh_lookup]].
  - unfold setProperty, plainObject, written in *. simpl.
    destruct (decide (key = "__proto__" ∧ m !! key = None)) as [[-> Hm]|Hnot].
    + rewrite decide_True by (split; [done | by apply Hown]).
      exists m, (Some le). simpl.
      split; [by apply (propsAt_lookup h' ns m (Some le))|].
      split; [by apply (protoAt_lookup h' ns m (Some le))|].
      split; [by apply (Forall_keeps h)|].
      split; [rewrite HS; symmetry; by apply omap_keeps|].
      rewrite Hnew. eauto.
    + rewrite decide_False by (intros [? ?]; apply Hnot; split;
                               [done | by apply Hown]).
      exists (<[key := le]> m), None. simpl.
      split; [by apply (propsAt_lookup h' ns (<[key := le]> m) None)|].
      split; [by apply (protoAt_lookup h' ns (<[key := le]> m) None)|].
      split; [|split; [|done]].
      * intros k l Hl. destruct (decide (key = k)) as [->|Hk].
        -- rewrite lookup_insert_eq in Hl. simplify_eq. eauto.
        -- rewrite lookup_insert_ne in Hl by done.
           destruct (Hall k l Hl) as [e He]. exists e.
           by apply (keeps_entryAt h).
      * apply map_eq. intros k. rewrite lookup_omap.
        destruct (decide (key = k)) as [->|Hk].
        -- rewrite !lookup_insert_eq. simpl. by rewrite Hnew.
        -- rewrite !lookup_insert_ne by done.
           rewrite (represents_lookup h m S k HS).
           destruct (m !! k) as [l|] eqn:Hl; [simpl|done].
           destruct (Hall k l Hl) as [e He].
           by rewrite He, (keeps_entryAt h h' l e Hkeeps He).
  - intros k Hk. unfold propsAt. rewrite Hat. unfold written.
    case_decide; simpl; [done | by rewrite lookup_insert_ne].
Qed.

(** The tail shared by the branches that replace an entry through
    [assign({}, previousState[queryId], { ... })]. *)
Lemma replace_entry_run h ps m S key patch :
  h !! ps = Some (StoreObject m None) →
  map_Forall (λ _ le, is_Some (entryAt h le)) m →
  S = omap (entryAt h) m →
  ∃ ns h',
    (newState <- assignStore ps ;;
     src <- getProp ps key ;;
     entry <- assignEntry src patch ;;
     setProp newState key entry ;;;
     ret newState) h = Some (ns, h')
    ∧ keeps h h'
    ∧ representsObject h' ns
        (setProperty (plainObject S) key
           (patch (assign_from (getProperty S key))))
    ∧ (∀ k, k ≠ key → (propsAt h' ns ≫= (.!! k)) = m !! k)
    ∧ h !! ns = None.
Proof.
  intros Hps Hall HS.
  pose proof (installed_entry h ps m S key
                (patch (assign_from (getProperty S key))) Hps Hall HS)
    as Hinst.
  cbv zeta in Hinst.
  set (ns := fresh (dom h)) in *.
  set (h1 := <[ns := StoreObject m None]> h) in *.
  set (le := fresh (dom h1)) in *.
  eexists ns, _. split; [|exact Hinst].
  assert (Hk1 : keeps h h1) by apply keeps_alloc.
  assert (Hps1 : h1 !! ps = Some (StoreObject m None)) by by apply Hk1.
  destruct (readPlain_property h h1 m S key Hk1 Hall HS)
    as (_ & _ & _ & Hentry).
  unfold bind at 1. rewrite (assignStore_run h ps m None Hps).
  fold ns. fold h1.
  unfold bind at 1. rewrite (getProp_run h1 ps m key Hps1).
  unfold bind at 1. rewrite (Hentry patch). fold le.
  unfold bind at 1.
  rewrite (setProp_run _ ns m None key le); [done|].
  rewrite lookup_insert_ne; [apply lookup_insert_eq|].
  intros Heq. apply (fresh_unused h1 ns (StoreObject m None)); [|done].
  unfold h1. apply lookup_insert_eq.
Qed.

(** The QUERY_INIT branch, which stores an object literal. *)
Lemma init_entry_run now h ps m S a :
  h !! ps = Some (StoreObject m None) →
  map_Forall (λ _ le, is_Some (entryAt h le)) m →
  S = omap (entryAt h) m →
  ∃ ns h',
    queriesH now ps (QUERY_INIT a) h = Some (ns, h')
    ∧ keeps h h'
    ∧ representsObject h' ns (queries_object now S (QUERY_INIT a))
    ∧ (∀ k, k ≠ init_queryId a → (propsAt h' ns ≫= (.!! k)) = m !! k)
    ∧ h !! ns = None.
Proof.
  intros Hps Hall HS.
  pose proof (installed_entry h ps m S (init_queryId a)
                (initEntry a (initPreviousVariables
                                (getProperty S (init_queryId a)) a))
                Hps Hall HS) as Hinst.
  cbv zeta in Hinst.
  set (ns := fresh (dom h)) in *.
  set (h1 := <[ns := StoreObject m None]> h) in *.
  set (le := fresh (dom h1)) in *.
  eexists ns, _. split; [|exact Hinst].
  assert (Hk1 : keeps h h1) by apply keeps_alloc.
  assert (Hps1 : h1 !! ps = Some (StoreObject m None)) by by apply Hk1.
  destruct (readPlain_property h h1 m S (init_queryId a) Hk1 Hall HS)
    as (Hread & _).
  unfold queriesH.
  unfold bind at 1. rewrite (assignStore_run h ps m None Hps).
  fold ns. fold h1.
  unfold bind at 1. rewrite (getProp_run h1 ps m _ Hps1).
  unfold bind at 1. rewrite Hread.
  unfold bind at 1, newObject at 1. fold le.
  unfold bind at 1.
  rewrite (setProp_run _ ns m None (init_queryId a) le); [done|].
  rewrite lookup_insert_ne; [apply lookup_insert_eq|].
  intros Heq. apply (fresh_unused h1 ns (StoreObject m None)); [|done].
  unfold h1. apply lookup_insert_eq.
Qed.

(** The loop of [resetQueryState] writes into [res] only. *)
Lemma reduceH_run h ps m proto res acc rproto keys :
  h !! ps = Some (StoreObject m proto) →
  h !! res = Some (StoreObject acc rproto) →
  ps ≠ res →
  reduceH ps res keys h
  = Some ((), <[res := StoreObject (foldl (copyKey m) acc keys) rproto]> h).
Proof.
  revert h acc. induction keys as [|key keys IH]; intros h acc Hps Hres Hne.
  - simpl. unfold ret. by rewrite insert_id.
  - cbn [reduceH foldl]. unfold bind at 1, copyKeyH, bind at 1, readStore.
    rewrite Hps. simpl. unfold copyKey at 2.
    destruct (m !! key) as [l|].
    + rewrite (setOwnProp_run h res acc rproto key l Hres).
      rewrite (IH _ (<[key := l]> acc)).
      * by rewrite insert_insert_eq.
      * by rewrite lookup_insert_ne.
      * apply lookup_insert_eq.
      * done.
    + unfold ret. by apply IH.
Qed.

Lemma resetQueryStateH_run h ps m proto ids :
  h !! ps = Some (StoreObject m proto) →
  resetQueryStateH ps ids h
  = Some (fresh (dom h),
          <[fresh (dom h) :=
              StoreObject
                (foldl (copyKey m) ∅
                   (filter (λ queryId, indexOf ids queryId > -1)
                      (map_to_list m).*1)) None]> h).
Proof.
  intros Hps.
  unfold resetQueryStateH, bind at 1, readStore. rewrite Hps.
  unfold bind at 1, newObject. unfold bind. simpl.
  rewrite (reduceH_run _ ps m proto (fresh (dom h)) ∅ None).
  - unfold ret. by rewrite insert_insert_eq.
  - rewrite lookup_insert_ne; [done|].
    intros Heq. by apply (fresh_unused h ps (StoreObject m proto)).
  - apply lookup_insert_eq.
  - intros Heq. by apply (fresh_unused h ps (StoreObject m proto)).
Qed.

Lemma reset_run h ps m S ids :
  h !! ps = Some (StoreObject m None) →
  map_Forall (λ _ le, is_Some (entryAt h le)) m →
  S = omap (entryAt h) m →
  ∃ ns h',
    resetQueryStateH ps ids h = Some (ns, h')
    ∧ keeps h h'
    ∧ represents h' ns (resetQueryState S ids)
    ∧ h !! ns = None.
Proof.
  intros Hps Hall HS.
  eexists _, _. split; [apply (resetQueryStateH_run h ps m None ids Hps)|].
  set (ns := fresh (dom h)).
  set (m' := foldl (copyKey m) ∅ _).
  set (h' := <[ns := StoreObject m' None]> h).
  assert (Hkeeps : keeps h h') by apply keeps_alloc.
  assert (Hm' : ∀ k, m' !! k = if decide (k ∈ ids) then m !! k else None).
  { intros k. apply reset_lookup. }
  assert (Hat : h' !! ns = Some (StoreObject m' None))
    by apply lookup_insert_eq.
  split; [done|]. split; [|apply fresh_lookup].
  exists m'. split; [by apply (propsAt_lookup h' ns m' None)|].
  split; [by apply (protoAt_lookup h' ns m' None)|]. split.
  - intros k l Hl. rewrite Hm' in Hl. case_decide; [|done].
    destruct (Hall k l Hl) as [e He]. exists e.
    by apply (keeps_entryAt h).
  - apply map_eq. intros k.
    rewrite resetQueryState_lookup, lookup_omap, Hm'.
    case_decide; [|done].
    rewrite (represents_lookup h m S k HS).
    destruct (m !! k) as [l|] eqn:Hl; [simpl|done].
    destruct (Hall k l Hl) as [e He].
    by rewrite He, (keeps_entryAt h h' l e Hkeeps He).
Qed.

(** Every branch of the reducer, run in a heap that holds the state. *)
Lemma queriesH_run now h ps m S action :
  h !! ps = Some (StoreObject m None) →
  map_Forall (λ _ le, is_Some (entryAt h le)) m →
  S = omap (entryAt h) m →
  ∃ ns h',
    queriesH now ps action h = Some (ns, h')
    ∧ keeps h h'
    ∧ representsObject h' ns (queries_object now S action)
    ∧ (∀ queryId k, action_queryId action = Some queryId → k ≠ queryId →
         (propsAt h' ns ≫= (.!! k)) = m !! k)
    ∧ (if returnsPreviousState S action then ns = ps ∧ h' = h
       else h !! ns = None).
Proof.
  intros Hps Hall HS.
  assert (Hrep : represents h ps S).
  { exists m. split; [by apply (propsAt_lookup h ps m None)|].
    split; [by apply (protoAt_lookup h ps m None) | done]. }
  assert (Hnoop : ∃ ns h', ret ps h = Some (ns, h') ∧ keeps h h'
              ∧ representsObject h' ns (plainObject S)
              ∧ (∀ queryId k, action_queryId action = Some queryId →
                   k ≠ queryId → (propsAt h' ns ≫= (.!! k)) = m !! k)
              ∧ (ns = ps ∧ h' = h)).
  { exists ps, h. split; [done|]. split; [apply keeps_refl|].
    split; [by apply represents_plainObject|]. split; [|done].
    intros. by rewrite (propsAt_lookup h ps m None Hps). }
  assert (Hreplace : ∀ key patch,
            action_queryId action = Some key →
            ∃ ns h',
              (newState <- assignStore ps ;;
               src <- getProp ps key ;;
               entry <- assignEntry src patch ;;
               setProp newState key entry ;;;
               ret newState) h = Some (ns, h')
              ∧ keeps h h'
              ∧ representsObject h' ns
                  (setProperty (plainObject S) key
                     (patch (assign_from (getProperty S key))))
              ∧ (∀ queryId k, action_queryId action = Some queryId →
                   k ≠ queryId → (propsAt h' ns ≫= (.!! k)) = m !! k)
              ∧ h !! ns = None).
  { intros key patch Hid.
    destruct (replace_entry_run h ps m S key patch Hps Hall HS)
      as (ns & h' & Hrun & Hk & Hr & Hf & Hnew).
    exists ns, h'. repeat (split; [done|]). split; [|done].
    intros q k Hq Hne. rewrite Hid in Hq. simplify_eq. by apply Hf. }
  assert (Htruthy : ∀ key,
            truthyRef (readPlain m key) = truthy (getProperty S key)).
  { intros key. apply (readPlain_property h h m S key (keeps_refl h) Hall HS). }
  assert (Hlast : ∀ key,
            readLastRequestId (readPlain m key) h
            = Some (property_lastRequestId (getProperty S key), h)).
  { intros key. apply (readPlain_property h h m S key (keeps_refl h) Hall HS). }
  destruct action as [a|q r|q r res|q r err|q c|q|ids|];
    cbn [action_queryId default] in *.
  - destruct (init_entry_run now h ps m S a Hps Hall HS)
      as (ns & h' & Hrun & Hk & Hr & Hf & Hnew).
    exists ns, h'. repeat (split; [done|]). split; [|done].
    intros queryId k Hq Hne. simplify_eq. by apply Hf.
  - unfold queriesH, bind at 1. rewrite (getProp_run h ps m q Hps).
    unfold queries_object, returnsPreviousState. rewrite Htruthy.
    destruct (truthy (getProperty S q)); cbn [negb]; [|exact Hnoop].
    by apply (Hreplace q (λ e, assignFetchRequest e r now)).
  - unfold queriesH, bind at 1. rewrite (getProp_run h ps m q Hps).
    unfold queries_object, returnsPreviousState. rewrite Htruthy.
    destruct (truthy (getProperty S q)); cbn [negb orb]; [|exact Hnoop].
    unfold bind at 1. rewrite (getProp_run h ps m q Hps).
    unfold bind at 1. rewrite Hlast.
    destruct (js_lt r (property_lastRequestId (getProperty S q)));
      [exact Hnoop|].
    by apply (Hreplace q (λ e, assignResult e
                (if graphQLResultHasError res then errors res else JNull))).
  - unfold queriesH, bind at 1. rewrite (getProp_run h ps m q Hps).
    unfold queries_object, returnsPreviousState. rewrite Htruthy.
    destruct (truthy (getProperty S q)); cbn [negb orb]; [|exact Hnoop].
    unfold bind at 1. rewrite (getProp_run h ps m q Hps).
    unfold bind at 1. rewrite Hlast.
    destruct (js_lt r (property_lastRequestId (getProperty S q)));
      [exact Hnoop|].
    by apply (Hreplace q (λ e, assignError e err)).
  - unfold queriesH, bind at 1. rewrite (getProp_run h ps m q Hps).
    unfold queries_object, returnsPreviousState. rewrite Htruthy.
    destruct (truthy (getProperty S q)); cbn [negb]; [|exact Hnoop].
    by apply (Hreplace q (λ e, assignResultClient e c)).
  - by apply (Hreplace q assignStop).
  - destruct (reset_run h ps m S ids Hps Hall HS)
      as (ns & h' & Hrun & Hk & Hr & Hnew).
    exists ns, h'. split; [exact Hrun|]. split; [done|].
    split; [by apply represents_plainObject|]. split; [|done].
    intros queryId k Hq. discriminate.
  - exact Hnoop.
Qed.

(** X14: the reducer writes into no object it was given.  Run in a heap in
    which [previousState] refers to a plain object that reads as the map
    [S], the reducer returns a reference to an object that reads as
    [queries_object now S action], own properties and prototype; in the
    heap it leaves behind, every object of the heap it was started in, the
    object [previousState] refers to and its entries among them, is as it
    was, for every kind of action and every query id; and for an action
    that carries a query id, the object returned has under every other
    query id the own property the old state had, by value and by
    reference. *)
Theorem queriesH_no_mutation now h previousState S action :
  represents h previousState S →
  ∃ newState h',
    queriesH now previousState action h = Some (newState, h')
    ∧ (∀ l o, h !! l = Some o → h' !! l = Some o)
    ∧ represents h' previousState S
    ∧ representsObject h' newState (queries_object now S action)
    ∧ ∀ queryId k, action_queryId action = Some queryId → k ≠ queryId →
        queries now S action !! k = S !! k
        ∧ (propsAt h' newState ≫= (.!! k))
          = (propsAt h previousState ≫= (.!! k)).
Proof.
  intros Hrep. pose proof Hrep as (m & Hm & Hp & Hall & HS).
  pose proof (plain_lookup h previousState m Hm Hp) as Hps.
  destruct (queriesH_run now h previousState m S action Hps Hall HS)
    as (ns & h' & Hrun & Hk & Hr & Hf & _).
  exists ns, h'. split; [done|]. split; [exact Hk|].
  split; [by apply (represents_keeps h)|]. split; [done|].
  intros queryId k Hq Hne.
  split; [by apply (queries_frame now S action queryId)|].
  rewrite (Hf queryId k Hq Hne). by rewrite Hm.
Qed.

(** X10: the reducer returns the very object it was given, and leaves the
    heap as it is, exactly on the inputs on which the source returns
    [previousState]: in FETCH_REQUEST, QUERY_RESULT, QUERY_ERROR and
    QUERY_RESULT_CLIENT a query id under which the state reads undefined
    (no own property, and no name of [Object.prototype]), a stale
    QUERY_RESULT or QUERY_ERROR, and an action that is none of the
    reducer's.  On every other input, a STORE_RESET that drops nothing and
    a QUERY_STOP of a stopped query among them, it returns a new object. *)
Theorem queriesH_returns_previousState now h previousState S action newState h' :
  represents h previousState S →
  queriesH now previousState action h = Some (newState, h') →
  if returnsPreviousState S action
  then newState = previousState ∧ h' = h
  else h !! newState = None ∧ newState ≠ previousState.
Proof.
  intros (m & Hm & Hp & Hall & HS) Hrun.
  pose proof (plain_lookup h previousState m Hm Hp) as Hps.
  destruct (queriesH_run now h previousState m S action Hps Hall HS)
    as (ns & h0 & Hrun0 & _ & _ & _ & Hident).
  rewrite Hrun in Hrun0. injection Hrun0 as <- <-.
  destruct (returnsPreviousState S action); [done|].
  split; [done|]. intros ->. congruence.
Qed.

(** X11: STORE_RESET copies references, not entries.  The object it returns
    is new, and its properties are those of the old state object whose
    query id is in the allow-list, each referring to the same entry object
    as before. *)
Theorem resetQueryStateH_shares_entries now h previousState m ids :
  propsAt h previousState = Some m →
  ∃ newState h',
    queriesH now previousState (STORE_RESET ids) h = Some (newState, h')
    ∧ h !! newState = None
    ∧ keeps h h'
    ∧ ∃ m', propsAt h' newState = Some m'
            ∧ ∀ queryId, m' !! queryId
                         = if decide (queryId ∈ ids) then m !! queryId
                           else None.
Proof.
  intros Hm. apply propsAt_Some in Hm as [proto Hm].
  eexists _, _.
  split; [apply (resetQueryStateH_run h previousState m proto ids Hm)|].
  split; [apply fresh_lookup|]. split; [apply keeps_alloc|].
  eexists. split; [apply (propsAt_lookup _ _ _ None), lookup_insert_eq|].
  intros k. apply reset_lookup.
Qed.

End HeapFacts.
(** * The operation registry *)

Section OperationFacts.
Context {QueryOptions : Type}.
Implicit Types (c : ClientOperations QueryOptions) (options : QueryOptions).
Implicit Types (calls : list (operationCall QueryOptions)).

(** Linear arithmetic with the bound 2^53 written out. *)
Ltac lia53 := change (2 ^ 53) with 9007199254740992 in *; lia.

Lemma js_increment_exact x : x < 2 ^ 53 → js_increment x = x + 1.
Proof.
  intros Hx. unfold js_increment.
  by rewrite (proj2 (Z.ltb_lt x (2 ^ 53)) Hx).
Qed.

Lemma startOperation_spec options c :
  startOperation options c
  = (idCounter c,
     {| idCounter := js_increment (idCounter c);
        activeOperations := <[idCounter c := options]> (activeOperations c) |}).
Proof. reflexivity. Qed.

Lemma registered_fresh c :
  registered c → activeOperations c !! idCounter c = None.
Proof.
  intros [_ Hact]. destruct (activeOperations c !! idCounter c) eqn:Hc; [|done].
  assert (0 ≤ idCounter c < idCounter c) by (apply Hact; rewrite Hc; eauto).
  lia53.
Qed.

Lemma registered_start options c :
  registered c → idCounter c < 2 ^ 53 →
  registered (startOperation options c).2.
Proof.
  intros [Hc Hact] Hlt. rewrite startOperation_spec. simpl.
  rewrite js_increment_exact by done. split; [simpl; lia53|].
  simpl. intros opId. destruct (decide (idCounter c = opId)) as [<-|Hne].
  - intros _. lia53.
  - rewrite lookup_insert_ne by done. intros Hop.
    specialize (Hact opId Hop). lia53.
Qed.

Lemma registered_stop opId c : registered c → registered (stopOperation opId c).
Proof.
  intros [Hc Hact]. split; [done|]. simpl. intros k Hk. apply Hact.
  destruct (decide (opId = k)) as [->|Hne].
  - rewrite lookup_delete_eq in Hk. by destruct Hk.
  - by rewrite lookup_delete_ne in Hk.
Qed.

(** X12: starting an operation registers it under an id that no active
    operation has, leaves the other operations as they are, and stopping it
    right away gives back the registry as it was.  This needs the registry
    to be one in which every active id is below the counter, and the
    counter to be below 2^53, where it still counts. *)
Theorem startOperation_stopOperation options c :
  registered c → idCounter c < 2 ^ 53 →
  let opId := (startOperation options c).1 in
  let c' := (startOperation options c).2 in
  activeOperations c !! opId = None
  ∧ activeOperations c' !! opId = Some options
  ∧ (∀ other, other ≠ opId →
       activeOperations c' !! other = activeOperations c !! other)
  ∧ registered c'
  ∧ activeOperations (stopOperation opId c') = activeOperations c.
Proof.
  intros Hreg Hlt opId c'.
  pose proof (registered_fresh c Hreg) as Hfresh.
  split; [exact Hfresh|]. split; [apply lookup_insert_eq|].
  split; [intros other Hne; by apply lookup_insert_ne|].
  split; [by apply registered_start|].
  unfold c', opId. rewrite startOperation_spec. simpl.
  rewrite delete_insert_eq. by apply delete_id.
Qed.

(** X13: the operation ids handed out are pairwise different.  From a
    registry in which every active id is below the counter, any sequence of
    starts and stops (of any ids) hands out ids that are pairwise different,
    none of them the id of an operation that was active at the outset, as
    long as the counter stays within 2^53; the registry stays such a
    registry. *)
Theorem runOperations_distinct calls c :
  registered c → idCounter c + starts calls ≤ 2 ^ 53 →
  let ids := (runOperations calls c).1 in
  let c' := (runOperations calls c).2 in
  NoDup ids
  ∧ (∀ opId, opId ∈ ids → idCounter c ≤ opId < idCounter c')
  ∧ (∀ opId, opId ∈ ids → activeOperations c !! opId = None)
  ∧ idCounter c' = idCounter c + starts calls
  ∧ registered c'.
Proof.
  cbv zeta. revert c.
  induction calls as [|[options|opId] calls IH]; intros c Hreg Hle.
  - simpl. split; [constructor|]. split; [by intros ? ?%elem_of_nil|].
    split; [by intros ? ?%elem_of_nil|]. split; [lia53 | done].
  - assert (Hstarts : 0 ≤ starts calls).
    { clear. induction calls as [|[?|?] ? ?]; simpl; lia53. }
    cbn [starts] in Hle. assert (Hlt : idCounter c < 2 ^ 53) by lia53.
    cbn [runOperations]. rewrite startOperation_spec.
    set (c1 := {| idCounter := js_increment (idCounter c);
                  activeOperations :=
                    <[idCounter c := options]> (activeOperations c) |}).
    assert (Hreg1 : registered c1).
    { pose proof (registered_start options c Hreg Hlt) as Hr.
      by rewrite startOperation_spec in Hr. }
    assert (Hc1 : idCounter c1 = idCounter c + 1).
    { unfold c1. simpl. by apply js_increment_exact. }
    destruct (IH c1 Hreg1) as (Hnd & Hrange & Hnone & Hcount & Hreg').
    { rewrite Hc1. lia53. }
    destruct (runOperations calls c1) as [ids c2] eqn:Hrun. simpl in *.
    split; [|split; [|split; [|split]]].
    + constructor; [|done]. intros Hin. specialize (Hrange _ Hin). lia53.
    + intros k [->|Hin]%elem_of_cons; [lia53|]. specialize (Hrange _ Hin). lia53.
    + intros k [->|Hin]%elem_of_cons; [by apply registered_fresh|].
      specialize (Hrange _ Hin). specialize (Hnone _ Hin).
      rewrite lookup_insert_ne in Hnone; [done | lia53].
    + lia53.
    + done.
  - cbn [starts] in Hle. cbn [runOperations starts].
    destruct (IH (stopOperation opId c) (registered_stop opId c Hreg) Hle)
      as (Hnd & Hrange & Hnone & Hcount & Hreg').
    split; [done|]. split; [done|]. split; [|done].
    intros k Hin. specialize (Hrange _ Hin). simpl in Hrange.
    destruct Hreg as [_ Hact].
    destruct (activeOperations c !! k) eqn:Hk; [|done].
    assert (0 ≤ k < idCounter c) by (apply Hact; rewrite Hk; eauto). lia53.
Qed.

End OperationFacts.

(** * The reducer at work *)

Section Runs.
#[local] Existing Instance demoImports.

(** C1 at a name of [Object.prototype]: the empty state has no entry for
    ["toString"], yet a QUERY_RESULT for it is not dropped by the guard
    [!previousState[action.queryId]].  The state returned has an entry
    under ["toString"] that holds the five fields the branch assigns and
    nothing else. *)
Theorem queries_QUERY_RESULT_toString :
  demoEmpty !! "toString" = None
  ∧ queries 0 demoEmpty (QUERY_RESULT "toString" 1 demoClean)
    = {[ "toString" := assignResult emptyObject JNull ]}
  ∧ queries 0 demoEmpty (QUERY_RESULT "toString" 1 demoClean) ≠ demoEmpty
  ∧ lastRequestId (assignResult emptyObject JNull) = JUndefined.
Proof.
  assert (Hrun : queries 0 demoEmpty (QUERY_RESULT "toString" 1 demoClean)
                 = {[ "toString" := assignResult emptyObject JNull ]})
    by reflexivity.
  split; [reflexivity|]. split; [exact Hrun|]. split; [|reflexivity].
  rewrite Hrun. intros Heq.
  apply (f_equal (λ S : QueryStore, S !! "toString")) in Heq.
  unfold demoEmpty in Heq.
  rewrite lookup_singleton_eq, lookup_empty in Heq. discriminate Heq.
Qed.

(** C2 refuted: the state has an entry for ["a"], and after QUERY_STOP for
    ["a"] it still has one. *)
Lemma queries_QUERY_STOP_removes_nothing :
  ¬ (is_Some (demoState !! "a") →
     queries 0 demoState (QUERY_STOP "a") !! "a" = None).
Proof.
  intros Hclaim. assert (Hin : is_Some (demoState !! "a")).
  { exists demoEntry. reflexivity. }
  specialize (Hclaim Hin).
  rewrite (queries_QUERY_STOP_own 0 demoState "a" demoEntry eq_refl)
    in Hclaim.
  rewrite lookup_insert_eq in Hclaim. discriminate.
Qed.

Lemma queries_QUERY_STOP_known_witness :
  demoState !! "a" = Some demoEntry
  ∧ ∃ e', queries 0 demoState (QUERY_STOP "a") !! "a" = Some e'
          ∧ loading e' = JVal false ∧ stopped e' = JVal true
          ∧ lastRequestId e' = JVal 2.
Proof.
  assert (Ha : demoState !! "a" = Some demoEntry) by (reflexivity).
  split; [exact Ha|].
  destruct (queries_QUERY_STOP_known 0 demoState "a" demoEntry Ha)
    as (e' & _ & Hlook & Hl & Hs & Hrest).
  exists e'. repeat (split; [assumption|]).
  rewrite (proj1 (proj2 (proj2 (proj2 (proj2 (proj2 (proj2 (proj2 (proj2
             (proj2 (proj2 (proj2 Hrest)))))))))))). reflexivity.
Defined.

(** C3 refuted: the same FETCH_REQUEST applied to the same state at two
    clock readings gives two different states. *)
Lemma queries_reads_the_clock :
  queries 1000 demoState (FETCH_REQUEST "a" 3)
  ≠ queries 2000 demoState (FETCH_REQUEST "a" 3).
Proof.
  rewrite !(queries_FETCH_REQUEST_own _ demoState "a" 3 demoEntry eq_refl).
  intros Heq. apply (f_equal (λ S : QueryStore, S !! "a")) in Heq.
  rewrite !lookup_insert_eq in Heq. discriminate Heq.
Qed.

Lemma queries_pure_up_to_clock_witness :
  queries 1000 demoState (QUERY_RESULT "a" 2 demoClean)
  = queries 2000 demoState (QUERY_RESULT "a" 2 demoClean)
  ∧ queries 1000 demoState (FETCH_REQUEST "z" 3)
    = queries 2000 demoState (FETCH_REQUEST "z" 3)
  ∧ ∃ e1 e2,
      queries 1000 demoState (FETCH_REQUEST "a" 3) = <["a" := e1]> demoState
      ∧ queries 2000 demoState (FETCH_REQUEST "a" 3) = <["a" := e2]> demoState
      ∧ lastRequestTime e1 = JVal 1000
      ∧ lastRequestTime e2 = JVal 2000
      ∧ agree_but_lastRequestTime e1 e2.
Proof.
  split; [|split].
  - apply (proj1 (queries_pure_up_to_clock 1000 2000 demoState
                    (QUERY_RESULT "a" 2 demoClean))).
    intros queryId requestId Hfetch. discriminate Hfetch.
  - apply (proj1 (queries_pure_up_to_clock 1000 2000 demoState
                    (FETCH_REQUEST "z" 3))).
    intros queryId requestId Hfetch. injection Hfetch as <- <-.
    split; reflexivity.
  - apply (proj2 (queries_pure_up_to_clock 1000 2000 demoState
                    (FETCH_REQUEST "a" 3)) "a" 3 demoEntry);
      [reflexivity | reflexivity].
Defined.

(** C5 at [__proto__]: a QUERY_INIT for the query id ["__proto__"] neither
    inserts nor overwrites an entry.  The state returned has the own
    properties of the state given, here none, and the entry built from the
    action has become the prototype of the state object. *)
Theorem queries_QUERY_INIT_proto :
  queries 0 demoEmpty (QUERY_INIT (demoInit "__proto__" 1 false)) = demoEmpty
  ∧ queries 0 demoEmpty (QUERY_INIT (demoInit "__proto__" 1 false))
      !! "__proto__" = None
  ∧ queries_object 0 demoEmpty (QUERY_INIT (demoInit "__proto__" 1 false))
    = {| properties := demoEmpty;
         prototype := Some (initEntry (demoInit "__proto__" 1 false)
                              JUndefined) |}.
Proof. repeat split. Qed.

(** C6 at a name of [Object.prototype]: the empty state has no entry for
    ["toString"], yet a FETCH_REQUEST for it is not dropped by the guard.
    The state returned has an entry under ["toString"] that holds inFlight,
    lastRequestId and the time read from the clock, and nothing else. *)
Theorem queries_FETCH_REQUEST_toString :
  demoEmpty !! "toString" = None
  ∧ queries 1000 demoEmpty (FETCH_REQUEST "toString" 3)
    = {[ "toString" := assignFetchRequest emptyObject 3 1000 ]}
  ∧ queries 1000 demoEmpty (FETCH_REQUEST "toString" 3) ≠ demoEmpty
  ∧ queries 1000 demoEmpty (FETCH_REQUEST "toString" 3)
    ≠ queries 2000 demoEmpty (FETCH_REQUEST "toString" 3).
Proof.
  assert (Hrun : ∀ now, queries now demoEmpty (FETCH_REQUEST "toString" 3)
                 = {[ "toString" := assignFetchRequest emptyObject 3 now ]})
    by reflexivity.
  split; [reflexivity|]. split; [apply Hrun|]. rewrite !Hrun. split.
  - intros Heq.
    apply (f_equal (λ S : QueryStore, S !! "toString")) in Heq.
    unfold demoEmpty in Heq.
    rewrite lookup_singleton_eq, lookup_empty in Heq. discriminate Heq.
  - intros Heq.
    apply (f_equal (λ S : QueryStore, S !! "toString")) in Heq.
    rewrite !lookup_singleton_eq in Heq. discriminate Heq.
Qed.

(** C7 at a name of [Object.prototype]: the empty state has no entry for
    ["valueOf"], yet a QUERY_ERROR for it passes both guards, the request
    id being compared with undefined.  The state returned has an entry
    under ["valueOf"] that holds loading, inFlight and the error, and
    nothing else. *)
Theorem queries_QUERY_ERROR_valueOf :
  demoEmpty !! "valueOf" = None
  ∧ queries 0 demoEmpty (QUERY_ERROR "valueOf" 1 (JVal "timeout"))
    = {[ "valueOf" := assignError emptyObject (JVal "timeout") ]}
  ∧ queries 0 demoEmpty (QUERY_ERROR "valueOf" 1 (JVal "timeout"))
    ≠ demoEmpty.
Proof.
  assert (Hrun : queries 0 demoEmpty (QUERY_ERROR "valueOf" 1 (JVal "timeout"))
                 = {[ "valueOf" := assignError emptyObject (JVal "timeout") ]})
    by reflexivity.
  split; [reflexivity|]. split; [exact Hrun|].
  rewrite Hrun. intros Heq.
  apply (f_equal (λ S : QueryStore, S !! "valueOf")) in Heq.
  unfold demoEmpty in Heq.
  rewrite lookup_singleton_eq, lookup_empty in Heq. discriminate Heq.
Qed.


(** C10 at [__proto__]: the empty state has no entry for ["__proto__"], and
    a QUERY_STOP for it adds none.  The state returned has no own property,
    as the state given; the entry with loading false and stopped true has
    become the prototype of the state object. *)
Theorem queries_QUERY_STOP_proto :
  demoEmpty !! "__proto__" = None
  ∧ queries 0 demoEmpty (QUERY_STOP "__proto__") = demoEmpty
  ∧ queries_object 0 demoEmpty (QUERY_STOP "__proto__")
    = {| properties := demoEmpty; prototype := Some (assignStop emptyObject) |}.
Proof. repeat split. Qed.

End Runs.

(** * The further properties at work *)

Section MoreRuns.
#[local] Existing Instance demoImports.

(** A result for an unknown id and a result with request id 1 after
    request 2 are dropped; a result with request id 2 is recorded. *)
Lemma queries_QUERY_RESULT_witness :
  queries 0 demoState (QUERY_RESULT "z" 1 demoFailed) = demoState
  ∧ queries 0 demoState (QUERY_RESULT "a" 1 demoFailed) = demoState
  ∧ ∃ e', queries 0 demoState (QUERY_RESULT "a" 2 demoFailed)
          = <["a" := e']> demoState
          ∧ loading e' = JVal false ∧ inFlight e' = JVal false
          ∧ graphQLErrors e' = JVal ["boom"]
          ∧ lastRequestId e' = JVal 2.
Proof.
  split; [|split].
  - apply (proj1 (queries_QUERY_RESULT 0 demoState "z" 1 (JVal ["boom"])));
      reflexivity.
  - apply (proj1 (proj2 (proj2
             (queries_QUERY_RESULT 0 demoState "a" 1 (JVal ["boom"]))))
             demoEntry 2); [reflexivity | reflexivity | lia].
  - destruct (proj2 (proj2 (proj2
                (queries_QUERY_RESULT 0 demoState "a" 2 (JVal ["boom"]))))
                demoEntry) as (e' & Heq & Hl & Hi & _ & _ & Herr & _ & Hrest).
    + reflexivity.
    + left. reflexivity.
    + exists e'. repeat (split; [assumption|]). split.
      * apply Herr. reflexivity.
      * rewrite (proj1 (proj2 (proj2 (proj2 (proj2 (proj2 (proj2 (proj2
                  (proj2 Hrest))))))))). reflexivity.
Defined.

(** ["c"] is initialised again with other variables and the request to
    keep the old ones. *)
Lemma queries_QUERY_INIT_witness :
  ∃ e', queries 0 demoState (QUERY_INIT (demoInit "c" 8 true))
        = <["c" := e']> demoState
        ∧ loading e' = JVal true
        ∧ variables e' = JVal {[ "x" := 8 ]}
        ∧ previousVariables e' = JVal {[ "x" := 7 ]}.
Proof.
  destruct (queries_QUERY_INIT 0 demoState (demoInit "c" 8 true))
    as (e' & Heq & Hl & _ & _ & _ & _ & _ & _ & _ & _ & Hv & _ & _ & _ & _
        & Hprev & _); [discriminate|].
  exists e'. repeat (split; [assumption|]).
  apply (Hprev (initEntry (demoInit "c" 7 false) JUndefined)).
  - reflexivity.
  - reflexivity.
  - apply (bool_decide_unpack _). vm_compute. exact I.
Defined.

Lemma queries_FETCH_REQUEST_witness :
  queries 1000 demoState (FETCH_REQUEST "z" 3) = demoState
  ∧ ∃ e', queries 1000 demoState (FETCH_REQUEST "b" 3) = <["b" := e']> demoState
          ∧ inFlight e' = JVal true
          ∧ lastRequestId e' = JVal 3
          ∧ lastRequestTime e' = JVal 1000.
Proof.
  split.
  - apply (proj1 (queries_FETCH_REQUEST 1000 demoState "z" 3)); reflexivity.
  - destruct (proj2 (queries_FETCH_REQUEST 1000 demoState "b" 3)
                (initEntry (demoInit "b" 1 false) JUndefined))
      as (e' & Heq & Hi & Hid & Ht & _).
    + reflexivity.
    + exists e'. by repeat split.
Defined.

Lemma queries_QUERY_ERROR_witness :
  queries 0 demoState (QUERY_ERROR "z" 1 (JVal "timeout")) = demoState
  ∧ queries 0 demoState (QUERY_ERROR "a" 1 (JVal "timeout")) = demoState
  ∧ ∃ e', queries 0 demoState (QUERY_ERROR "a" 2 (JVal "timeout"))
          = <["a" := e']> demoState
          ∧ loading e' = JVal false ∧ inFlight e' = JVal false
          ∧ networkError e' = JVal "timeout".
Proof.
  split; [|split].
  - apply (proj1 (queries_QUERY_ERROR 0 demoState "z" 1 (JVal "timeout")));
      reflexivity.
  - apply (proj1 (proj2 (proj2
             (queries_QUERY_ERROR 0 demoState "a" 1 (JVal "timeout"))))
             demoEntry 2); [reflexivity | reflexivity | lia].
  - destruct (proj2 (proj2 (proj2
                (queries_QUERY_ERROR 0 demoState "a" 2 (JVal "timeout"))))
                demoEntry) as (e' & Heq & Hl & Hi & Herr & _).
    + reflexivity.
    + reflexivity.
    + exists e'. by repeat split.
Defined.

(** ["z"] is no query of the demo state. *)
Lemma queries_QUERY_STOP_unknown_witness :
  demoState !! "z" = None
  ∧ queries 0 demoState (QUERY_STOP "z") ≠ demoState
  ∧ ∃ e', queries 0 demoState (QUERY_STOP "z") !! "z" = Some e'
          ∧ loading e' = JVal false ∧ stopped e' = JVal true
          ∧ inFlight e' = JUndefined ∧ lastRequestId e' = JUndefined.
Proof.
  assert (Hz : demoState !! "z" = None) by (reflexivity).
  split; [exact Hz|].
  destruct (queries_QUERY_STOP_unknown 0 demoState "z" Hz)
    as (Hne & e' & Heq & Hl & Hs & _ & _ & _ & _ & _ & Hi & _ & _ & _ & _ & _
        & Hid & _); [discriminate|].
  split; [exact Hne|]. exists e'. split.
  - rewrite Heq. apply lookup_insert_eq.
  - by repeat split.
Defined.

Lemma queries_QUERY_RESULT_CLIENT_witness :
  queries 0 demoState (QUERY_RESULT_CLIENT "z" true) = demoState
  ∧ ∃ e', queries 0 demoState (QUERY_RESULT_CLIENT "a" false)
          = <["a" := e']> demoState
          ∧ loading e' = JVal true ∧ networkError e' = JNull.
Proof.
  split.
  - apply (proj1 (queries_QUERY_RESULT_CLIENT 0 demoState "z" true));
      reflexivity.
  - destruct (proj2 (queries_QUERY_RESULT_CLIENT 0 demoState "a" false)
                demoEntry eq_refl) as (e' & Heq & Hl & Hn & _).
    exists e'. by repeat split.
Defined.

(** ["toString"] is no query of the demo state, and every guarded branch
    adds an entry for it. *)
Lemma queries_guards_pass_inherited_witness :
  demoState !! "toString" = None
  ∧ queries 1000 demoState (FETCH_REQUEST "toString" 3) ≠ demoState
  ∧ queries 1000 demoState (FETCH_REQUEST "toString" 3)
    = <["toString" := assignFetchRequest emptyObject 3 1000]> demoState
  ∧ queries 0 demoState (QUERY_RESULT_CLIENT "toString" true) ≠ demoState.
Proof.
  assert (Hts : demoState !! "toString" = None) by reflexivity.
  destruct (queries_guards_pass_inherited 1000 demoState "toString" Hts
              eq_refl ltac:(discriminate)) as (Hfetch & _).
  destruct (queries_guards_pass_inherited 0 demoState "toString" Hts
              eq_refl ltac:(discriminate)) as (_ & _ & _ & Hclient).
  split; [exact Hts|]. split; [apply (Hfetch 3)|].
  split; [apply (Hfetch 3) | apply (Hclient true)].
Defined.

(** A QUERY_STOP for ["__proto__"] on the demo state, and one for ["a"]. *)
Lemma queries_object_proto_witness :
  demoState !! "__proto__" = None
  ∧ properties (queries_object 0 demoState (QUERY_STOP "__proto__"))
    = demoState
  ∧ prototype (queries_object 0 demoState (QUERY_STOP "__proto__"))
    = Some (assignStop emptyObject)
  ∧ prototype (queries_object 0 demoState (QUERY_STOP "a")) = None.
Proof.
  assert (Hp : demoState !! "__proto__" = None) by reflexivity.
  split; [exact Hp|].
  destruct (proj1 (queries_object_proto 0 demoState (QUERY_STOP "__proto__")
                     Hp) eq_refl) as [Hprops Hproto].
  split; [exact Hprops|]. split; [exact Hproto|].
  apply (proj2 (queries_object_proto 0 demoState (QUERY_STOP "a") Hp)).
  discriminate.
Defined.

(** The query ["a"] of the demo state is in flight.  It stays so when it is
    stopped, a result that answers its request clears the flag, and an
    error for an earlier request leaves the entry as it is. *)
Lemma inFlight_cleared_only_by_witness :
  demoState !! "a" = Some demoEntry
  ∧ inFlight demoEntry = JVal true
  ∧ (∃ e', queries 0 demoState (QUERY_STOP "a") !! "a" = Some e'
           ∧ inFlight e' = JVal true)
  ∧ (∃ e', queries 0 demoState (QUERY_RESULT "a" 2 demoClean) !! "a"
           = Some e'
           ∧ inFlight e' = JVal false)
  ∧ queries 0 demoState (QUERY_ERROR "a" 1 (JVal "timeout")) !! "a"
    = Some demoEntry.
Proof.
  assert (Ha : demoState !! "a" = Some demoEntry) by reflexivity.
  destruct (inFlight_cleared_only_by 0 demoState "a" demoEntry Ha eq_refl)
    as (_ & _ & Hres & _ & Hstop & _ & Hstale).
  split; [exact Ha|]. split; [reflexivity|]. split; [exact Hstop|].
  split; [apply (Hres 2 demoClean); reflexivity|].
  apply (Hstale 1 demoClean (JVal "timeout")). reflexivity.
Defined.

Lemma stale_response_ignored_witness :
  let S' := queries_seq (queries 1000 demoState (FETCH_REQUEST "b" 2))
              demoDispatched in
  queries 2000 S' (QUERY_RESULT "b" 1 demoFailed) = S'
  ∧ queries 2000 S' (QUERY_ERROR "b" 1 (JVal "timeout")) = S'.
Proof.
  apply (stale_response_ignored 1000 2000 demoState "b" 1 2 demoDispatched
           demoFailed (JVal "timeout")).
  - eexists. reflexivity.
  - lia.
  - repeat constructor.
Defined.

Lemma queries_QUERY_INIT_accepts_any_response_witness :
  ∃ e', queries 2000 (queries 1000 demoState (QUERY_INIT (demoInit "a" 1 false)))
          (QUERY_RESULT "a" 1 demoClean)
        = <["a" := e']>
            (queries 1000 demoState (QUERY_INIT (demoInit "a" 1 false)))
        ∧ loading e' = JVal false.
Proof.
  destruct (proj1 (queries_QUERY_INIT_accepts_any_response 1000 2000 demoState
                     (demoInit "a" 1 false) 1 demoClean JNull
                     ltac:(discriminate) ltac:(lia)))
    as (e' & Heq & Hl & _).
  exists e'. split; [exact Heq | exact Hl].
Defined.

(** The query ["a"] is stopped, and then a result arrives for it. *)
Lemma stopped_cleared_only_by_witness :
  queries 0 demoState (QUERY_STOP "a") !! "a" = Some (assignStop demoEntry)
  ∧ stopped (assignStop demoEntry) = JVal true
  ∧ (∃ e', queries 2000 (queries 0 demoState (QUERY_STOP "a"))
             (QUERY_RESULT "a" 2 demoFailed) !! "a" = Some e'
           ∧ stopped e' = JVal true
           ∧ loading e' = JVal false ∧ inFlight e' = JVal false
           ∧ graphQLErrors e' = JVal ["boom"])
  ∧ (∃ e', queries 2000 (queries 0 demoState (QUERY_STOP "a"))
             (QUERY_INIT (demoInit "a" 1 false)) !! "a" = Some e'
           ∧ stopped e' = JVal false).
Proof.
  assert (Hstop : queries 0 demoState (QUERY_STOP "a") !! "a"
                  = Some (assignStop demoEntry)) by reflexivity.
  destruct (stopped_cleared_only_by 2000 _ "a" _ Hstop eq_refl)
    as (_ & Hinit & Hres & _).
  split; [exact Hstop|]. split; [reflexivity|]. split.
  - destruct (Hres 2 demoFailed eq_refl)
      as (e' & Hlook & Hst & Hl & Hi & _ & Herr).
    exists e'. by repeat split.
  - apply (Hinit (demoInit "a" 1 false)). reflexivity.
Defined.

Lemma queries_idempotent_witness :
  queries 1000 (queries 1000 demoState (FETCH_REQUEST "b" 5))
    (FETCH_REQUEST "b" 5)
  = queries 1000 demoState (FETCH_REQUEST "b" 5).
Proof.
  apply (queries_idempotent 1000 demoState (FETCH_REQUEST "b" 5)).
  intros a Ha. discriminate Ha.
Defined.

(** ["c"] is initialised twice with new variables and the request to keep
    the old ones. *)
Lemma queries_QUERY_INIT_twice_witness :
  previousVariables
    <$> queries 1000 demoState (QUERY_INIT (demoInit "c" 8 true)) !! "c"
  = Some (JVal {[ "x" := 7 ]})
  ∧ queries 2000 (queries 1000 demoState (QUERY_INIT (demoInit "c" 8 true)))
      (QUERY_INIT (demoInit "c" 8 true))
    = <["c" := initEntry (demoInit "c" 8 true) JUndefined]> demoState.
Proof.
  split.
  - rewrite (queries_QUERY_INIT_own 1000 demoState (demoInit "c" 8 true)
               ltac:(left; discriminate)).
    simpl. rewrite lookup_insert_eq. reflexivity.
  - apply (queries_QUERY_INIT_twice 1000 2000 demoState (demoInit "c" 8 true)).
    discriminate.
Defined.

Lemma demoHeap_holds_demoState :
  demoHeap !! 1%positive
  = Some (StoreObject {[ "a" := 2%positive; "b" := 3%positive;
                         "c" := 4%positive ]} None)
  ∧ map_Forall (λ _ le, is_Some (entryAt demoHeap le))
      ({[ "a" := 2%positive; "b" := 3%positive; "c" := 4%positive ]}
         : gmap string loc)
  ∧ demoState
    = omap (entryAt demoHeap)
        ({[ "a" := 2%positive; "b" := 3%positive; "c" := 4%positive ]}
           : gmap string loc).
Proof.
  split; [reflexivity|]. split; [|reflexivity].
  intros k le Hk.
  assert (Hle : le ∈ [2%positive; 3%positive; 4%positive]).
  { apply (map_Forall_insert_2 (λ _ le, le ∈ [2; 3; 4]%positive)) in Hk;
      [done | set_solver |].
    apply map_Forall_insert_2; [set_solver|].
    apply map_Forall_insert_2; [set_solver|].
    apply map_Forall_empty. }
  apply list_elem_of_In in Hle. simpl in Hle.
  destruct Hle as [<- | [<- | [<- | []]]]; eexists; reflexivity.
Qed.

Lemma demoHeap_represents_demoState : represents demoHeap 1%positive demoState.
Proof.
  destruct demoHeap_holds_demoState as (Hm & Hall & HS).
  exists {[ "a" := 2%positive; "b" := 3%positive; "c" := 4%positive ]}.
  split; [exact (propsAt_lookup _ _ _ None Hm)|].
  split; [exact (protoAt_lookup _ _ _ None Hm) | done].
Qed.

(** A FETCH_REQUEST for ["a"] run in the demo heap, which holds the demo
    state at reference 1. *)
Lemma queriesH_no_mutation_witness :
  represents demoHeap 1%positive demoState
  ∧ ∃ newState h',
      queriesH 1000 1%positive (FETCH_REQUEST "a" 3) demoHeap
      = Some (newState, h')
      ∧ (∀ l o, demoHeap !! l = Some o → h' !! l = Some o)
      ∧ represents h' 1%positive demoState
      ∧ representsObject h' newState
          (queries_object 1000 demoState (FETCH_REQUEST "a" 3))
      ∧ ∀ queryId k,
          action_queryId (FETCH_REQUEST "a" 3) = Some queryId → k ≠ queryId →
          queries 1000 demoState (FETCH_REQUEST "a" 3) !! k = demoState !! k
          ∧ (propsAt h' newState ≫= (.!! k))
            = (propsAt demoHeap 1%positive ≫= (.!! k)).
Proof.
  split; [exact demoHeap_represents_demoState|].
  exact (queriesH_no_mutation 1000 demoHeap 1%positive demoState
           (FETCH_REQUEST "a" 3) demoHeap_represents_demoState).
Defined.

(** In the demo heap a QUERY_STOP returns a new object, a stale result and
    a request for the unknown id ["z"] return the object given, and a
    request for ["toString"], which the guard lets pass, returns a new
    object. *)
Lemma queriesH_returns_previousState_witness :
  represents demoHeap 1%positive demoState
  ∧ (∃ newState h',
       queriesH 1000 1%positive (QUERY_STOP "a") demoHeap = Some (newState, h')
       ∧ demoHeap !! newState = None ∧ newState ≠ 1%positive)
  ∧ queriesH 1000 1%positive (QUERY_RESULT "a" 1 demoFailed) demoHeap
    = Some (1%positive, demoHeap)
  ∧ queriesH 1000 1%positive (FETCH_REQUEST "z" 3) demoHeap
    = Some (1%positive, demoHeap)
  ∧ (∃ newState h',
       queriesH 1000 1%positive (FETCH_REQUEST "toString" 3) demoHeap
       = Some (newState, h')
       ∧ demoHeap !! newState = None ∧ newState ≠ 1%positive).
Proof.
  destruct demoHeap_holds_demoState as (Hm & Hall & HS).
  pose proof demoHeap_represents_demoState as Hrep.
  split; [exact Hrep|]. split; [|split; [|split]].
  - destruct (queriesH_run 1000 demoHeap 1%positive _ demoState
                (QUERY_STOP "a") Hm Hall HS) as (ns & h' & Hrun & _).
    exists ns, h'. split; [exact Hrun|].
    exact (queriesH_returns_previousState 1000 demoHeap 1%positive demoState
             (QUERY_STOP "a") ns h' Hrep Hrun).
  - destruct (queriesH_run 1000 demoHeap 1%positive _ demoState
                (QUERY_RESULT "a" 1 demoFailed) Hm Hall HS)
      as (ns & h' & Hrun & _).
    destruct (queriesH_returns_previousState 1000 demoHeap 1%positive
                demoState (QUERY_RESULT "a" 1 demoFailed) ns h' Hrep Hrun)
      as [-> ->].
    exact Hrun.
  - destruct (queriesH_run 1000 demoHeap 1%positive _ demoState
                (FETCH_REQUEST "z" 3) Hm Hall HS)
      as (ns & h' & Hrun & _).
    destruct (queriesH_returns_previousState 1000 demoHeap 1%positive
                demoState (FETCH_REQUEST "z" 3) ns h' Hrep Hrun)
      as [-> ->].
    exact Hrun.
  - destruct (queriesH_run 1000 demoHeap 1%positive _ demoState
                (FETCH_REQUEST "toString" 3) Hm Hall HS)
      as (ns & h' & Hrun & _).
    exists ns, h'. split; [exact Hrun|].
    exact (queriesH_returns_previousState 1000 demoHeap 1%positive demoState
             (FETCH_REQUEST "toString" 3) ns h' Hrep Hrun).
Defined.

Lemma resetQueryStateH_shares_entries_witness :
  ∃ newState h' m',
    queriesH 0 1%positive (STORE_RESET ["c"; "a"; "x"]) demoHeap
    = Some (newState, h')
    ∧ propsAt h' newState = Some m'
    ∧ m' !! "a" = Some 2%positive ∧ m' !! "b" = None
    ∧ m' !! "c" = Some 4%positive ∧ m' !! "x" = None.
Proof.
  destruct (resetQueryStateH_shares_entries 0 demoHeap 1%positive
              {[ "a" := 2%positive; "b" := 3%positive; "c" := 4%positive ]}
              ["c"; "a"; "x"] eq_refl)
    as (ns & h' & Hrun & _ & _ & m' & Hm' & Hlook).
  exists ns, h', m'. split; [exact Hrun|]. split; [exact Hm'|].
  rewrite !Hlook. repeat split; reflexivity.
Defined.

Lemma newClientOperations_registered :
  registered (newClientOperations (QueryOptions := string)).
Proof.
  split; [simpl; change (2 ^ 53) with 9007199254740992; lia|].
  intros opId [x Hx]. simpl in Hx. by rewrite lookup_empty in Hx.
Qed.

Lemma startOperation_stopOperation_witness :
  (startOperation "{ a }" newClientOperations).1 = 0
  ∧ activeOperations (startOperation "{ a }" newClientOperations).2 !! 0
    = Some "{ a }"
  ∧ activeOperations
      (stopOperation 0 (startOperation "{ a }" newClientOperations).2)
    = ∅.
Proof.
  destruct (startOperation_stopOperation "{ a }" newClientOperations
              newClientOperations_registered eq_refl)
    as (_ & Hin & _ & _ & Hback).
  split; [reflexivity|]. split; [exact Hin | exact Hback].
Defined.

Lemma runOperations_distinct_witness :
  (runOperations demoCalls newClientOperations).1 = [0; 1; 2]
  ∧ NoDup (runOperations demoCalls newClientOperations).1
  ∧ idCounter (runOperations demoCalls newClientOperations).2 = 3.
Proof.
  destruct (runOperations_distinct demoCalls newClientOperations
              newClientOperations_registered)
    as (Hnd & _ & _ & Hcount & _).
  - simpl. change (2 ^ 53) with 9007199254740992. lia.
  - split; [reflexivity|]. split; [exact Hnd | exact Hcount].
Defined.

End MoreRuns.
